(** * zp-memory-pool: a shallow embedding of the allocator and its properties

    The development follows the three translation units of the repository:

    - [SupperPool]: [version2/include/Common.h] (the size classes) and
      [version2/src/ThreadCache.cc] (the per-thread cache);
    - [ZPmemoryPool_version1]: [version1/ZPmemoryPool.{h,cc}] (the slab pool
      and the bucketed front end [HashBucket]);
    - [ZPmemoryPool_src]: [src/ZPmemoryPool.cc] with [include/ZPmemoryPool.h]
      (the earlier slab pool).

    [size_t] and pointers are 64-bit words, modelled as [Z] with the
    wrap-around written out.  Raw memory is a finite map from addresses to
    the pointer-sized word stored there; the allocator only ever reads and
    writes the first word of a slot, which is where the intrusive link
    lives. *)

From Stdlib Require Import ZArith Lia List.
From stdpp Require Import base option list gmap.

Open Scope Z_scope.

(** ** Machine words *)

Definition SIZE_WIDTH : Z := 64.
Definition SIZE_MODULUS : Z := 2 ^ SIZE_WIDTH.

(** Arithmetic on [size_t] is arithmetic modulo [2^64]. *)
Definition wrap (z : Z) : Z := z mod SIZE_MODULUS.

(** The implicit conversion of a [size_t] to [int] at a call site. *)
Definition to_int (z : Z) : Z :=
  let r := z mod 2 ^ 32 in
  if r <? 2 ^ 31 then r else r - 2 ^ 32.

Definition nullptr : Z := 0.

(** [sizeof(Slot)], [sizeof(Slot* )] and [sizeof(void* )]. *)
Definition POINTER_BYTES : Z := 8.

(** The mathematical ceiling of [a / b], used to state the size-class law. *)
Definition ceil_div (a b : Z) : Z := - ((- a) / b).

(** ** Outcomes of a call *)

Inductive fault : Type :=
  | out_of_range         (* std::out_of_range thrown *)
  | assertion_failure    (* assert(...) failed *)
  | bad_alloc            (* operator new could not serve the request *)
  | undefined_behavior   (* null or wild dereference, division by zero, ... *)
  | out_of_fuel.         (* the bound given to a loop of the model was too small *)

Inductive result (A : Type) : Type :=
  | Ok (a : A)
  | Fail (f : fault).
Arguments Ok {A} a.
Arguments Fail {A} f.

(** State and failure, threaded through every member function. *)
Definition M (S A : Type) : Type := S → result (A * S).

#[global] Instance M_ret {S} : MRet (M S) := λ A a s, Ok (a, s).
#[global] Instance M_bind {S} : MBind (M S) := λ A B k m s,
  match m s with
  | Ok (a, s') => k a s'
  | Fail f => Fail f
  end.

Definition raise {S A} (f : fault) : M S A := λ _, Fail f.
Definition get {S} : M S S := λ s, Ok (s, s).
Definition put {S} (s : S) : M S unit := λ _, Ok (tt, s).
Definition gets {S A} (f : S → A) : M S A := λ s, Ok (f s, s).
Definition modify {S} (f : S → S) : M S unit := λ s, Ok (tt, f s).

(** ** The system allocator

    [malloc]/[free] and [operator new]/[operator delete] belong to the C++
    runtime, not to the repository: they are an interface here. *)
Class System (H : Type) := {
  sys_alloc : Z → H → option (Z * H);
  sys_release : Z → H → H;
}.

(** ** Raw memory as the slab pools see it *)

(** The words the pool has written (address to value) and the state of
    the system allocator. *)
Record heap {H : Type} : Type := Heap {
  words : gmap Z Z;
  runtime : H;
}.
Arguments heap : clear implicits.
Arguments Heap {H} _ _.

Section Heap.
Context {H : Type} `{!System H}.

(** [p->next] as an rvalue. *)
Definition read_next (p : Z) : M (heap H) Z := λ h,
  if decide (p = nullptr) then Fail undefined_behavior
  else match words h !! p with
       | Some v => Ok (v, h)
       | None => Fail undefined_behavior
       end.

(** [p->next = v] *)
Definition write_next (p v : Z) : M (heap H) unit := λ h,
  if decide (p = nullptr) then Fail undefined_behavior
  else Ok (tt, Heap (<[p := v]> (words h)) (runtime h)).

(** [operator new(size)]: throws when the request cannot be served. *)
Definition operator_new (size : Z) : M (heap H) Z := λ h,
  match sys_alloc size (runtime h) with
  | Some (p, r) => Ok (p, Heap (words h) r)
  | None => Fail bad_alloc
  end.

(** [operator delete(ptr)] *)
Definition operator_delete (ptr : Z) : M (heap H) unit := λ h,
  Ok (tt, Heap (words h) (sys_release ptr (runtime h))).

(** Run a heap action next to some object [X]. *)
Definition on_heap {X A} (m : M (heap H) A) : M (X * heap H) A := λ s,
  match m s.2 with
  | Ok (a, h) => Ok (a, (s.1, h))
  | Fail f => Fail f
  end.
End Heap.

(** ** version2/include/Common.h *)
Module SupperPool.

Definition ALIGNMENT : Z := 8.
Definition MAX_BYTES : Z := 256.
Definition FREE_LIST_SIZE : Z := MAX_BYTES / ALIGNMENT.

Module SizeClass.

(** [(bytes + ALIGNMENT - 1) & ~(ALIGNMENT - 1)] *)
Definition roundUp (bytes : Z) : Z :=
  Z.land (wrap (wrap (bytes + ALIGNMENT) - 1))
         (wrap (Z.lnot (wrap (ALIGNMENT - 1)))).

(** [bytes = std::max(bytes, ALIGNMENT);
     return (bytes + ALIGNMENT - 1) / ALIGNMENT - 1;] *)
Definition getIndex (bytes : Z) : Z :=
  let bytes := Z.max bytes ALIGNMENT in
  wrap (wrap (wrap (bytes + ALIGNMENT) - 1) / ALIGNMENT - 1).

End SizeClass.

(** *** The collaborator: CentralCache *)

(** Modelled from the spec: the CentralCache class ([fetchRange],
    [rerurnRange]) is called by ThreadCache.cc but its sources are not
    part of the repository snapshot.  Only its call surface is fixed:
    [fetchRange(index)] hands back the head of a chain of free slots of
    that class (or null), [rerurnRange(start, bytes, index)] takes a chain
    back.  Both may rewrite the links stored in the slots they own, so
    they act on raw memory as well as on their own state. *)
Class CentralCache (C : Type) := {
  fetchRange : Z → C → gmap Z Z → Z * C * gmap Z Z;
  rerurnRange : Z → Z → Z → C → gmap Z Z → C * gmap Z Z;
}.

(** The calls a ThreadCache makes to the CentralCache, oldest first. *)
Inductive central_call : Type :=
  | FetchRange (index : Z)
  | RerurnRange (start bytes index : Z).

(** *** version2/include/ThreadCache.h: the object *)

(** [std::array<void*, FREE_LIST_SIZE> free_list_] and
    [std::array<size_t, FREE_LIST_SIZE> free_list_size_]. *)
Record ThreadCache : Type := {
  free_list_ : list Z;
  free_list_size_ : list Z;
}.

(** [static thread_local ThreadCache instance]: zero-initialised. *)
Definition instance : ThreadCache :=
  {| free_list_ := replicate (Z.to_nat FREE_LIST_SIZE) nullptr;
     free_list_size_ := replicate (Z.to_nat FREE_LIST_SIZE) 0 |}.

(** What a member function of ThreadCache can see and change: the object
    itself, raw memory, the CentralCache and the system heap.  [calls]
    records the CentralCache calls made so far. *)
Record state {C H : Type} : Type := State {
  self : ThreadCache;
  mem : gmap Z Z;
  central : C;
  sys : H;
  calls : list central_call;
}.
Arguments state : clear implicits.
Arguments State {C H} _ _ _ _ _.

Section ThreadCache.
Context {C H : Type} `{!CentralCache C} `{!System H}.

#[local] Abbreviation state := (state C H).

(** [*reinterpret_cast<void**>(a)] as an rvalue. *)
Definition load (a : Z) : M state Z := λ s,
  if decide (a = nullptr) then Fail undefined_behavior
  else match mem s !! a with
       | Some v => Ok (v, s)
       | None => Fail undefined_behavior
       end.

(** [*reinterpret_cast<void**>(a) = v] *)
Definition store (a v : Z) : M state unit := λ s,
  if decide (a = nullptr) then Fail undefined_behavior
  else Ok (tt, State (self s) (<[a := v]> (mem s)) (central s) (sys s) (calls s)).

(** [arr[index]] on a [std::array]: out of range is undefined. *)
Definition array_get (arr : list Z) (index : Z) : result Z :=
  match arr !! Z.to_nat index with
  | Some v => Ok v
  | None => Fail undefined_behavior
  end.

Definition array_set (arr : list Z) (index v : Z) : result (list Z) :=
  if decide (Z.to_nat index < length arr)%nat
  then Ok (<[Z.to_nat index := v]> arr)
  else Fail undefined_behavior.

Definition get_free_list (index : Z) : M state Z := λ s,
  match array_get (free_list_ (self s)) index with
  | Ok v => Ok (v, s)
  | Fail f => Fail f
  end.

Definition set_free_list (index v : Z) : M state unit := λ s,
  match array_set (free_list_ (self s)) index v with
  | Ok l =>
      Ok (tt, State {| free_list_ := l;
                       free_list_size_ := free_list_size_ (self s) |}
                    (mem s) (central s) (sys s) (calls s))
  | Fail f => Fail f
  end.

Definition get_free_list_size (index : Z) : M state Z := λ s,
  match array_get (free_list_size_ (self s)) index with
  | Ok v => Ok (v, s)
  | Fail f => Fail f
  end.

Definition set_free_list_size (index v : Z) : M state unit := λ s,
  match array_set (free_list_size_ (self s)) index v with
  | Ok l =>
      Ok (tt, State {| free_list_ := free_list_ (self s);
                       free_list_size_ := l |}
                    (mem s) (central s) (sys s) (calls s))
  | Fail f => Fail f
  end.

(** [CentralCache::getInstance().fetchRange(index)] *)
Definition call_fetchRange (index : Z) : M state Z := λ s,
  let '(start, c, m) := fetchRange index (central s) (mem s) in
  Ok (start, State (self s) m c (sys s) (calls s ++ [FetchRange index])).

(** [CentralCache::getInstance().rerurnRange(start, bytes, index)] *)
Definition call_rerurnRange (start bytes index : Z) : M state unit := λ s,
  let '(c, m) := rerurnRange start bytes index (central s) (mem s) in
  Ok (tt, State (self s) m c (sys s)
                (calls s ++ [RerurnRange start bytes index])).

(** [malloc(size)]: null when the request cannot be served. *)
Definition malloc (size : Z) : M state Z := λ s,
  match sys_alloc size (sys s) with
  | Some (p, h) => Ok (p, State (self s) (mem s) (central s) h (calls s))
  | None => Ok (nullptr, s)
  end.

(** [free(ptr)] *)
Definition free (ptr : Z) : M state unit := λ s,
  Ok (tt, State (self s) (mem s) (central s)
                (sys_release ptr (sys s)) (calls s)).

(** The [while (current != nullptr)] loop of [fetchFromCentralCache]. *)
Fixpoint count_batch (fuel : nat) (current batch_num : Z) : M state Z :=
  if decide (current ≠ nullptr) then
    match fuel with
    | O => raise out_of_fuel
    | S fuel' =>
        next ← load current;
        count_batch fuel' next (wrap (batch_num + 1))
    end
  else mret batch_num.

Definition fetchFromCentralCache (fuel : nat) (index : Z) : M state Z :=
  start ← call_fetchRange index;
  if decide (start = nullptr) then mret nullptr
  else
    let result := start in
    next ← load start;
    set_free_list index next;;
    batch_num ← count_batch fuel start 0;
    size ← get_free_list_size index;
    set_free_list_size index (wrap (size + batch_num));;
    mret result.

Definition allocate (fuel : nat) (size : Z) : M state Z :=
  let size := if decide (size = 0) then ALIGNMENT else size in
  if decide (size > MAX_BYTES) then malloc size
  else
    let index := SizeClass.getIndex size in
    n ← get_free_list_size index;
    set_free_list_size index (wrap (n - 1));;
    ptr ← get_free_list index;
    (if decide (ptr ≠ nullptr)
     then next ← load ptr; set_free_list index next
     else mret tt);;
    fetchFromCentralCache fuel index.

Definition sholdReturnToCentralCache (index : Z) : M state bool :=
  let threshold := 256 in
  n ← get_free_list_size index;
  mret (bool_decide (n > threshold)).

(** The [for (i = 0; i < keep_num - 1; ++i)] loop of
    [returnTocentralCache]; it yields [split_node] and [return_num]. *)
Fixpoint walk_to_split (fuel : nat) (i keep_num batch_num : Z)
    (split_node return_num : Z) : M state (Z * Z) :=
  if decide (i < wrap (keep_num - 1)) then
    match fuel with
    | O => raise out_of_fuel
    | S fuel' =>
        split_node ← load split_node;
        if decide (split_node = nullptr)
        then mret (split_node, wrap (batch_num - wrap (i + 1)))
        else walk_to_split fuel' (wrap (i + 1)) keep_num batch_num
                           split_node return_num
    end
  else mret (split_node, return_num).

Definition returnTocentralCache (fuel : nat) (start size : Z) : M state unit :=
  let index := SizeClass.getIndex size in
  let aligned_size := SizeClass.roundUp size in
  batch_num ← get_free_list_size index;
  if decide (batch_num <= 1) then mret tt
  else
    let keep_num := Z.max (batch_num / 4) 1 in
    let return_num := wrap (batch_num - keep_num) in
    r ← walk_to_split fuel 0 keep_num batch_num start return_num;
    let split_node := r.1 in
    let return_num := r.2 in
    if decide (split_node ≠ nullptr) then
      next_node ← load split_node;
      store split_node nullptr;;
      set_free_list index start;;
      set_free_list_size index keep_num;;
      if decide (return_num > 0 ∧ next_node ≠ nullptr)
      then call_rerurnRange next_node (wrap (return_num * aligned_size)) index
      else mret tt
    else mret tt.

Definition deallocate (fuel : nat) (ptr size : Z) : M state unit :=
  if decide (size > MAX_BYTES) then free ptr
  else
    let index := SizeClass.getIndex size in
    head ← get_free_list index;
    store ptr head;;
    set_free_list index ptr;;
    n ← get_free_list_size index;
    set_free_list_size index (wrap (n + 1));;
    b ← sholdReturnToCentralCache index;
    if b : bool then
      start ← get_free_list index;
      returnTocentralCache fuel start size
    else mret tt.

End ThreadCache.

End SupperPool.

(** ** version1/ZPmemoryPool.h and version1/ZPmemoryPool.cc *)
Module ZPmemoryPool_version1.

Definition MEMORY_POOL_NUM : Z := 64.
Definition SLOT_BASE_SIZE : Z := 8.
Definition MAX_SLOT_SIZE : Z := 512.

Record MemoryPool : Type := {
  block_size_ : Z;
  slot_size_ : Z;
  first_block_ : Z;
  current_slot_ : Z;
  free_list_ : Z;
  last_slot_ : Z;
}.

(** [MemoryPool::MemoryPool(size_t block_size = 4096)] *)
Definition MemoryPool_ctor (block_size : Z) : MemoryPool :=
  {| block_size_ := block_size; slot_size_ := 0; first_block_ := nullptr;
     current_slot_ := nullptr; free_list_ := nullptr; last_slot_ := nullptr |}.

Section MemoryPool.
Context {H : Type} `{!System H}.

#[local] Abbreviation pool_state := (MemoryPool * heap H)%type.

Definition this {A} (f : MemoryPool → A) : M pool_state A :=
  gets (λ s, f s.1).
Definition update (f : MemoryPool → MemoryPool) : M pool_state unit :=
  modify (λ s, (f s.1, s.2)).

Definition set_first_block_ (v : Z) (p : MemoryPool) : MemoryPool :=
  {| block_size_ := block_size_ p; slot_size_ := slot_size_ p;
     first_block_ := v; current_slot_ := current_slot_ p;
     free_list_ := free_list_ p; last_slot_ := last_slot_ p |}.
Definition set_current_slot_ (v : Z) (p : MemoryPool) : MemoryPool :=
  {| block_size_ := block_size_ p; slot_size_ := slot_size_ p;
     first_block_ := first_block_ p; current_slot_ := v;
     free_list_ := free_list_ p; last_slot_ := last_slot_ p |}.
Definition set_free_list_ (v : Z) (p : MemoryPool) : MemoryPool :=
  {| block_size_ := block_size_ p; slot_size_ := slot_size_ p;
     first_block_ := first_block_ p; current_slot_ := current_slot_ p;
     free_list_ := v; last_slot_ := last_slot_ p |}.
Definition set_last_slot_ (v : Z) (p : MemoryPool) : MemoryPool :=
  {| block_size_ := block_size_ p; slot_size_ := slot_size_ p;
     first_block_ := first_block_ p; current_slot_ := current_slot_ p;
     free_list_ := free_list_ p; last_slot_ := v |}.

(** [assert(size > 0)], then every member but [block_size_] is reset. *)
Definition init (size : Z) : M pool_state unit :=
  if decide (size > 0) then
    update (λ p,
      {| block_size_ := block_size_ p; slot_size_ := size;
         first_block_ := nullptr; current_slot_ := nullptr;
         free_list_ := nullptr; last_slot_ := nullptr |})
  else raise assertion_failure.

(** [(align - reinterpret_cast<size_t>(p)) % align] *)
Definition PadPointer (p align : Z) : M pool_state Z :=
  if decide (align = 0) then raise undefined_behavior
  else mret (wrap (align - p) mod align).

Definition AllocateNewBlock : M pool_state unit :=
  block_size ← this block_size_;
  slot_size ← this slot_size_;
  new_block ← on_heap (operator_new block_size);
  first_block ← this first_block_;
  on_heap (write_next new_block first_block);;
  update (set_first_block_ new_block);;
  let body := wrap (new_block + POINTER_BYTES) in
  padding_size ← PadPointer body slot_size;
  update (set_current_slot_ (wrap (body + padding_size)));;
  let block_end := wrap (new_block + block_size) in
  update (set_last_slot_ (wrap (block_end - slot_size))).

(** The free-list branch of [Allocate]: the test, and the same test
    again under [mutex_for_free_list_]. *)
Definition pop_free_list : M pool_state (option Z) :=
  free_list ← this free_list_;
  if decide (free_list ≠ nullptr) then
    free_list ← this free_list_;
    if decide (free_list ≠ nullptr) then
      let temp := free_list in
      next ← on_heap (read_next free_list);
      update (set_free_list_ next);;
      mret (Some temp)
    else mret None
  else mret None.

Definition Allocate : M pool_state Z :=
  popped ← pop_free_list;
  match popped with
  | Some temp => mret temp
  | None =>
      current_slot ← this current_slot_;
      last_slot ← this last_slot_;
      (if decide (current_slot = nullptr ∨ current_slot > last_slot)
       then AllocateNewBlock else mret tt);;
      temp ← this current_slot_;
      slot_size ← this slot_size_;
      update (set_current_slot_ (wrap (temp + slot_size)));;
      mret temp
  end.

Definition Deallocate (ptr : Z) : M pool_state unit :=
  if decide (ptr ≠ nullptr) then
    free_list ← this free_list_;
    on_heap (write_next ptr free_list);;
    update (set_free_list_ ptr)
  else mret tt.

(** The [while (cur)] loop of [MemoryPool::~MemoryPool]: the link is read
    before the block is released. *)
Fixpoint release_blocks (fuel : nat) (cur : Z) : M (heap H) unit :=
  if decide (cur ≠ nullptr) then
    match fuel with
    | O => raise out_of_fuel
    | S fuel' =>
        next ← read_next cur;
        operator_delete cur;;
        release_blocks fuel' next
    end
  else mret tt.

(** [MemoryPool::~MemoryPool()] *)
Definition MemoryPool_dtor (fuel : nat) : M pool_state unit :=
  cur ← this first_block_;
  on_heap (release_blocks fuel cur).

End MemoryPool.

(** *** HashBucket *)

Section HashBucket.
Context {H : Type} `{!System H}.

(** [static MemoryPool pools[MEMORY_POOL_NUM]] inside [getMemoryPool],
    next to the heap.  The array is constructed when control first
    passes its declaration; the constructor only fills in the members,
    so the array is taken as present from the start. *)
#[local] Abbreviation bucket_state := (list MemoryPool * heap H)%type.

Definition pools : list MemoryPool :=
  replicate (Z.to_nat MEMORY_POOL_NUM) (MemoryPool_ctor 4096).

(** [MemoryPool& getMemoryPool(int index)]: the reference returned is
    the position of the pool in the static array. *)
Definition getMemoryPool (index : Z) : M bucket_state nat :=
  if decide (index < 0 ∨ index >= MEMORY_POOL_NUM)
  then raise out_of_range
  else mret (Z.to_nat index).

(** A member call through the reference [pools[ref]]. *)
Definition at_pool {A} (ref : nat) (call : M (MemoryPool * heap H) A)
    : M bucket_state A := λ s,
  match s.1 !! ref with
  | Some p =>
      match call (p, s.2) with
      | Ok (a, (p', h)) => Ok (a, (<[ref := p']> s.1, h))
      | Fail f => Fail f
      end
  | None => Fail undefined_behavior
  end.

(** [for (int i = 0; i < MEMORY_POOL_NUM; i++)] *)
Fixpoint initMemoryPool_loop (n : nat) (i : Z) : M bucket_state unit :=
  match n with
  | O => mret tt
  | S n' =>
      ref ← getMemoryPool i;
      at_pool ref (init (wrap ((i + 1) * SLOT_BASE_SIZE)));;
      initMemoryPool_loop n' (i + 1)
  end.

Definition initMemoryPool : M bucket_state unit :=
  initMemoryPool_loop (Z.to_nat MEMORY_POOL_NUM) 0.

(** [((size + 7) / SLOT_BASE_SIZE) - 1], computed in [size_t] and
    passed as the [int] parameter of [getMemoryPool]. *)
Definition bucket_index (size : Z) : Z :=
  to_int (wrap (wrap (size + 7) / SLOT_BASE_SIZE - 1)).

Definition useMemory (size : Z) : M bucket_state Z :=
  if decide (size <= 0) then mret nullptr
  else if decide (size > MAX_SLOT_SIZE) then on_heap (operator_new size)
  else
    ref ← getMemoryPool (bucket_index size);
    at_pool ref Allocate.

Definition freeMemory (ptr size : Z) : M bucket_state unit :=
  if decide (ptr = nullptr) then mret tt
  else if decide (size > MAX_SLOT_SIZE) then on_heap (operator_delete ptr)
  else
    ref ← getMemoryPool (bucket_index size);
    at_pool ref (Deallocate ptr).

End HashBucket.

End ZPmemoryPool_version1.

(** ** src/ZPmemoryPool.cc with include/ZPmemoryPool.h *)
Module ZPmemoryPool_src.

Record MemoryPool : Type := {
  block_size_ : Z;
  slot_size_ : Z;
  first_block_ : Z;
  current_slot_ : Z;
  free_list_ : Z;
  last_slot_ : Z;
}.

Section MemoryPool.
Context {H : Type} `{!System H}.

(** [PadPointer] is declared in include/ZPmemoryPool.h and called by
    [AllocateNewBlock], but this translation unit does not define it:
    it is a parameter.  Its result is never used. *)
Context (PadPointer : Z → Z → Z).

#[local] Abbreviation pool_state := (MemoryPool * heap H)%type.

Definition this {A} (f : MemoryPool → A) : M pool_state A :=
  gets (λ s, f s.1).
Definition update (f : MemoryPool → MemoryPool) : M pool_state unit :=
  modify (λ s, (f s.1, s.2)).

Definition set_first_block_ (v : Z) (p : MemoryPool) : MemoryPool :=
  {| block_size_ := block_size_ p; slot_size_ := slot_size_ p;
     first_block_ := v; current_slot_ := current_slot_ p;
     free_list_ := free_list_ p; last_slot_ := last_slot_ p |}.
Definition set_current_slot_ (v : Z) (p : MemoryPool) : MemoryPool :=
  {| block_size_ := block_size_ p; slot_size_ := slot_size_ p;
     first_block_ := first_block_ p; current_slot_ := v;
     free_list_ := free_list_ p; last_slot_ := last_slot_ p |}.
Definition set_free_list_ (v : Z) (p : MemoryPool) : MemoryPool :=
  {| block_size_ := block_size_ p; slot_size_ := slot_size_ p;
     first_block_ := first_block_ p; current_slot_ := current_slot_ p;
     free_list_ := v; last_slot_ := last_slot_ p |}.

(** [MemoryPool::MemoryPool(size_t block_size)] initialises
    [block_size_] only; the other members hold whatever [junk] held
    until [init] runs. *)
Definition MemoryPool_ctor (block_size : Z) (junk : MemoryPool) : MemoryPool :=
  {| block_size_ := block_size; slot_size_ := slot_size_ junk;
     first_block_ := first_block_ junk;
     current_slot_ := current_slot_ junk;
     free_list_ := free_list_ junk; last_slot_ := last_slot_ junk |}.

Definition init (size : Z) : M pool_state unit :=
  if decide (size > 0) then
    update (λ p,
      {| block_size_ := block_size_ p; slot_size_ := size;
         first_block_ := nullptr; current_slot_ := nullptr;
         free_list_ := nullptr; last_slot_ := nullptr |})
  else raise assertion_failure.

(** [last_slot_] is not assigned here, and the free list is dropped. *)
Definition AllocateNewBlock : M pool_state unit :=
  block_size ← this block_size_;
  slot_size ← this slot_size_;
  new_block ← on_heap (operator_new block_size);
  first_block ← this first_block_;
  on_heap (write_next new_block first_block);;
  update (set_first_block_ new_block);;
  let body := wrap (new_block + POINTER_BYTES) in
  let padding_size := PadPointer body slot_size in
  update (set_current_slot_
            (wrap (wrap (wrap (new_block + block_size) - slot_size) + 1)));;
  update (set_free_list_ nullptr).

Definition pop_free_list : M pool_state (option Z) :=
  free_list ← this free_list_;
  if decide (free_list ≠ nullptr) then
    free_list ← this free_list_;
    if decide (free_list ≠ nullptr) then
      let temp := free_list in
      next ← on_heap (read_next free_list);
      update (set_free_list_ next);;
      mret (Some temp)
    else mret None
  else mret None.

(** [current_slot_ += slot_size_ / sizeof(Slot)] is arithmetic on a
    [Slot*]: the address moves by that many whole [Slot]s. *)
Definition Allocate : M pool_state Z :=
  popped ← pop_free_list;
  match popped with
  | Some temp => mret temp
  | None =>
      current_slot ← this current_slot_;
      last_slot ← this last_slot_;
      (if decide (current_slot >= last_slot)
       then AllocateNewBlock else mret tt);;
      temp ← this current_slot_;
      slot_size ← this slot_size_;
      update (set_current_slot_
                (wrap (temp + wrap (slot_size / POINTER_BYTES * POINTER_BYTES))));;
      mret temp
  end.

(** Declared [void* Deallocate(void* ptr)] and written without a
    [return]: control flows off the end of a value-returning function,
    which is undefined, once the push (if any) is done. *)
Definition Deallocate (ptr : Z) : M pool_state Z :=
  (if decide (ptr ≠ nullptr) then
     free_list ← this free_list_;
     on_heap (write_next ptr free_list);;
     update (set_free_list_ ptr)
   else mret tt);;
  raise undefined_behavior.

End MemoryPool.

End ZPmemoryPool_src.

(** ** Concrete collaborators, to run the model *)
Module Scenario.

(** A system allocator that hands out consecutive blocks, each rounded
    up to a multiple of 16 bytes, and remembers what was released. *)
Record bump : Type := Bump {
  next_block : Z;
  released : list Z;
}.

#[global] Instance bump_system : System bump := {|
  sys_alloc size h :=
    Some (next_block h,
          Bump (next_block h + 16 * ((size + 15) / 16)) (released h));
  sys_release ptr h := Bump (next_block h) (released h ++ [ptr]);
|}.

(** [link chain m] stores in every slot of [chain] the address of the
    slot after it, null in the last one. *)
Fixpoint link (chain : list Z) (m : gmap Z Z) : gmap Z Z :=
  match chain with
  | [] => m
  | p :: rest => <[p := hd nullptr rest]> (link rest m)
  end.

(** A CentralCache that serves the chains of a script, one per
    [fetchRange], then null; what is returned to it is forgotten. *)
#[global] Instance scripted_central : SupperPool.CentralCache (list (list Z)) := {|
  SupperPool.fetchRange index c m :=
    match c with
    | [] => (nullptr, [], m)
    | chain :: c' => (hd nullptr chain, c', link chain m)
    end;
  SupperPool.rerurnRange start bytes index c m := (c, m);
|}.

(** [slots base size n]: [n] slots of [size] bytes from address [base]. *)
Fixpoint slots (base size : Z) (n : nat) : list Z :=
  match n with
  | O => []
  | S n' => base :: slots (base + size) size n'
  end.

(** A thread that has not touched its cache yet. *)
Definition fresh (script : list (list Z)) : SupperPool.state (list (list Z)) bump :=
  SupperPool.State SupperPool.instance ∅ script (Bump 65536 []) [].

(** A thread whose cache holds the chain [l] at [index], counted as [n]. *)
Definition holding (index : nat) (l : list Z) (n : Z) (script : list (list Z))
    : SupperPool.state (list (list Z)) bump :=
  SupperPool.State
    {| SupperPool.free_list_ :=
         <[index := hd nullptr l]> (SupperPool.free_list_ SupperPool.instance);
       SupperPool.free_list_size_ :=
         <[index := n]> (SupperPool.free_list_size_ SupperPool.instance) |}
    (link l ∅) script (Bump 65536 []) [].

End Scenario.

(** ** Vocabulary of the statements *)

(** [never_throws m]: whatever else goes wrong in [m], it is not a
    [std::out_of_range]. *)
Definition never_throws {S A} (m : M S A) : Prop :=
  ∀ s, m s ≠ Fail out_of_range.

(** [chain m p l]: in memory [m], following the links from [p] visits
    exactly the slots [l], in order, and then reaches null. *)
Inductive chain (m : gmap Z Z) : Z → list Z → Prop :=
  | chain_nil : chain m nullptr []
  | chain_cons (p next : Z) (l : list Z) :
      p ≠ nullptr → m !! p = Some next → chain m next l →
      chain m p (p :: l).

(** The state [ThreadCache::deallocate] reaches once [ptr] is pushed in
    front of [head] at [index] and the counter is set to [n]. *)
Definition pushed {C H : Type} (st : SupperPool.state C H)
    (index ptr head n : Z) : SupperPool.state C H :=
  SupperPool.State
    {| SupperPool.free_list_ :=
         <[Z.to_nat index := ptr]> (SupperPool.free_list_ (SupperPool.self st));
       SupperPool.free_list_size_ :=
         <[Z.to_nat index := n]> (SupperPool.free_list_size_ (SupperPool.self st)) |}
    (<[ptr := head]> (SupperPool.mem st)) (SupperPool.central st)
    (SupperPool.sys st) (SupperPool.calls st).

(** The same as a test, to settle [chain] on a concrete memory. *)
Fixpoint is_chain (m : gmap Z Z) (p : Z) (l : list Z) : bool :=
  match l with
  | [] => bool_decide (p = nullptr)
  | q :: l' =>
      bool_decide (p = q) && bool_decide (p ≠ nullptr)
      && match m !! p with
         | Some next => is_chain m next l'
         | None => false
         end
  end.

(** [keeps_calls m]: [m] makes no call to the CentralCache. *)
Definition keeps_calls {C H A : Type} (m : M (SupperPool.state C H) A) : Prop :=
  ∀ s a s', m s = Ok (a, s') → SupperPool.calls s' = SupperPool.calls s.

(** [carving p]: the bump cursor of a version-1 pool is either unset, or
    inside the block at [first_block_], after the link that heads the
    block and no further than one slot past [last_slot_], which is the
    last place where a slot fits. *)
Definition carving (p : ZPmemoryPool_version1.MemoryPool) : Prop :=
  let block := ZPmemoryPool_version1.first_block_ p in
  let block_size := ZPmemoryPool_version1.block_size_ p in
  let slot_size := ZPmemoryPool_version1.slot_size_ p in
  let current := ZPmemoryPool_version1.current_slot_ p in
  0 < slot_size ∧ POINTER_BYTES + 2 * slot_size <= block_size
  ∧ (current = nullptr
     ∨ (0 < block ∧ block + block_size < SIZE_MODULUS
        ∧ ZPmemoryPool_version1.last_slot_ p = block + block_size - slot_size
        ∧ block + POINTER_BYTES <= current
        ∧ current <= block + block_size)).

(** The system heap after releasing the blocks [l], first to last. *)
Definition released_all {H : Type} `{!System H} (l : list Z) (r : H) : H :=
  foldl (λ r b, sys_release b r) r l.

(** A version-1 pool as [init(size)] leaves it. *)
Definition reset_pool (size : Z) (p : ZPmemoryPool_version1.MemoryPool)
    : ZPmemoryPool_version1.MemoryPool :=
  {| ZPmemoryPool_version1.block_size_ := ZPmemoryPool_version1.block_size_ p;
     ZPmemoryPool_version1.slot_size_ := size;
     ZPmemoryPool_version1.first_block_ := nullptr;
     ZPmemoryPool_version1.current_slot_ := nullptr;
     ZPmemoryPool_version1.free_list_ := nullptr;
     ZPmemoryPool_version1.last_slot_ := nullptr |}.

(** A pool of src/ZPmemoryPool.cc read as a pool of version 1: the two
    classes have the same members. *)
Definition as_version1 (p : ZPmemoryPool_src.MemoryPool)
    : ZPmemoryPool_version1.MemoryPool :=
  {| ZPmemoryPool_version1.block_size_ := ZPmemoryPool_src.block_size_ p;
     ZPmemoryPool_version1.slot_size_ := ZPmemoryPool_src.slot_size_ p;
     ZPmemoryPool_version1.first_block_ := ZPmemoryPool_src.first_block_ p;
     ZPmemoryPool_version1.current_slot_ := ZPmemoryPool_src.current_slot_ p;
     ZPmemoryPool_version1.free_list_ := ZPmemoryPool_src.free_list_ p;
     ZPmemoryPool_version1.last_slot_ := ZPmemoryPool_src.last_slot_ p |}.

(** [touches_only i m]: of the free lists and counters of a thread cache,
    [m] changes at most those of class [i]. *)
Definition touches_only {C H A : Type} (i : nat)
    (m : M (SupperPool.state C H) A) : Prop :=
  ∀ s a s', m s = Ok (a, s') →
    ∀ j, j ≠ i →
      SupperPool.free_list_ (SupperPool.self s') !! j
        = SupperPool.free_list_ (SupperPool.self s) !! j
      ∧ SupperPool.free_list_size_ (SupperPool.self s') !! j
        = SupperPool.free_list_size_ (SupperPool.self s) !! j.

Create HintDb throws.
Create HintDb calls.
Create HintDb frame.

(** * Properties *)

(** ** Size classes and routing *)

Section Routing.
Import SupperPool ZPmemoryPool_version1.

Lemma wrap_small (z : Z) : 0 <= z < SIZE_MODULUS → wrap z = z.
Proof. intros Hz. unfold wrap. by apply Z.mod_small. Qed.

Lemma ceil_div_8 (s : Z) : ceil_div s 8 = (s + 7) / 8.
Proof. unfold ceil_div. Z.div_mod_to_equations. lia. Qed.

Lemma getIndex_small (s : Z) :
  0 <= s <= MAX_BYTES → SizeClass.getIndex s = (Z.max s 8 + 7) / 8 - 1.
Proof.
  unfold SizeClass.getIndex, MAX_BYTES, ALIGNMENT. intros Hs.
  assert (Hm : 8 <= Z.max s 8 <= 256) by lia.
  assert (Hd : 1 <= (Z.max s 8 + 7) / 8 <= 32)
    by (Z.div_mod_to_equations; lia).
  rewrite (wrap_small (Z.max s 8 + 8)) by (unfold SIZE_MODULUS, SIZE_WIDTH; lia).
  rewrite (wrap_small (Z.max s 8 + 8 - 1)) by (unfold SIZE_MODULUS, SIZE_WIDTH; lia).
  replace (Z.max s 8 + 8 - 1) with (Z.max s 8 + 7) by lia.
  apply wrap_small. unfold SIZE_MODULUS, SIZE_WIDTH. lia.
Qed.

Lemma bucket_index_small (s : Z) :
  1 <= s <= MAX_SLOT_SIZE → bucket_index s = (s + 7) / 8 - 1.
Proof.
  unfold bucket_index, MAX_SLOT_SIZE, SLOT_BASE_SIZE, to_int. intros Hs.
  assert (Hd : 1 <= (s + 7) / 8 <= 64) by (Z.div_mod_to_equations; lia).
  rewrite (wrap_small (s + 7)) by (unfold SIZE_MODULUS, SIZE_WIDTH; lia).
  rewrite wrap_small by (unfold SIZE_MODULUS, SIZE_WIDTH; lia).
  rewrite Z.mod_small by lia.
  destruct (Z.ltb_spec ((s + 7) / 8 - 1) (2 ^ 31)); lia.
Qed.

(** C6. For a size [s] of at least one byte, [SizeClass::getIndex] (up to
    [MAX_BYTES] = 256) and the index [HashBucket::useMemory] routes with
    (up to [MAX_SLOT_SIZE] = 512) both equal [ceil(s / 8) - 1], and lie
    in [[0, 32)] and [[0, 64)] respectively. *)
Theorem size_class_index (s : Z) :
  1 <= s →
  (s <= MAX_BYTES →
     SizeClass.getIndex s = ceil_div s ALIGNMENT - 1
     ∧ 0 <= SizeClass.getIndex s < FREE_LIST_SIZE)
  ∧ (s <= MAX_SLOT_SIZE →
     bucket_index s = ceil_div s SLOT_BASE_SIZE - 1
     ∧ 0 <= bucket_index s < MEMORY_POOL_NUM).
Proof.
  intros Hs. split; intros Hle.
  - rewrite getIndex_small by (unfold MAX_BYTES in *; lia).
    unfold FREE_LIST_SIZE, MAX_BYTES, ALIGNMENT in *.
    rewrite ceil_div_8. change (256 / 8) with 32.
    destruct (Z.max_spec s 8) as [[? ->] | [? ->]];
      Z.div_mod_to_equations; lia.
  - rewrite bucket_index_small by lia.
    unfold SLOT_BASE_SIZE, MEMORY_POOL_NUM, MAX_SLOT_SIZE in *.
    rewrite ceil_div_8. Z.div_mod_to_equations; lia.
Qed.

Lemma size_class_index_witness :
  (SizeClass.getIndex 200 = ceil_div 200 ALIGNMENT - 1
   ∧ 0 <= SizeClass.getIndex 200 < FREE_LIST_SIZE)
  ∧ (bucket_index 200 = ceil_div 200 SLOT_BASE_SIZE - 1
     ∧ 0 <= bucket_index 200 < MEMORY_POOL_NUM).
Proof.
  destruct (size_class_index 200) as [HA HB]; [lia |].
  split; [apply HA | apply HB]; vm_compute; discriminate.
Defined.

End Routing.

(** ** The bucketed front end (version 1) *)

Section NeverThrows.
Context {H : Type} `{!System H}.

Lemma never_throws_ret {S A} (a : A) : never_throws (mret a : M S A).
Proof. intros s. discriminate. Qed.

Lemma never_throws_bind {S A B} (m : M S A) (k : A → M S B) :
  never_throws m → (∀ a, never_throws (k a)) → never_throws (m ≫= k).
Proof.
  intros Hm Hk s. unfold mbind, M_bind.
  specialize (Hm s). destruct (m s) as [[a s'] | f]; [apply Hk | intros [= ->]; by destruct Hm].
Qed.

Lemma never_throws_raise {S A} (f : fault) :
  f ≠ out_of_range → never_throws (raise f : M S A).
Proof. intros Hf s. unfold raise. congruence. Qed.

Lemma never_throws_gets {S A} (f : S → A) : never_throws (gets f).
Proof. intros s. discriminate. Qed.

Lemma never_throws_modify {S} (f : S → S) : never_throws (modify f).
Proof. intros s. discriminate. Qed.

Lemma never_throws_on_heap {X A} (m : M (heap H) A) :
  never_throws m → never_throws (on_heap m : M (X * heap H) A).
Proof.
  intros Hm s. unfold on_heap. specialize (Hm s.2).
  destruct (m s.2) as [[a h] | f]; [discriminate | intros [= ->]; by destruct Hm].
Qed.

Lemma never_throws_read_next (p : Z) : never_throws (read_next (H:=H) p).
Proof.
  intros h. unfold read_next.
  destruct (decide (p = nullptr)); [discriminate |].
  destruct (words h !! p); discriminate.
Qed.

Lemma never_throws_write_next (p v : Z) : never_throws (write_next (H:=H) p v).
Proof.
  intros h. unfold write_next. destruct (decide (p = nullptr)); discriminate.
Qed.

Lemma never_throws_operator_new (n : Z) : never_throws (operator_new (H:=H) n).
Proof.
  intros h. unfold operator_new.
  destruct (sys_alloc n (runtime h)) as [[p r] |]; discriminate.
Qed.

End NeverThrows.

#[local] Hint Resolve never_throws_ret never_throws_gets never_throws_modify
  never_throws_on_heap never_throws_read_next never_throws_write_next
  never_throws_operator_new : throws.

(** Walks through a member function, statement by statement. *)
Ltac never_throws_step :=
  match goal with
  | |- never_throws (mbind _ _) => apply never_throws_bind; [| intros ?]
  | |- never_throws (if ?c then _ else _) => destruct c
  | |- never_throws (match ?o with Some _ => _ | None => _ end) => destruct o
  | |- never_throws (raise _) => apply never_throws_raise; discriminate
  | |- never_throws _ => solve [eauto with throws]
  end.

Section BucketFront.
Import ZPmemoryPool_version1.
Context {H : Type} `{!System H}.

Lemma never_throws_Allocate : never_throws (Allocate (H:=H)).
Proof.
  unfold Allocate, pop_free_list, AllocateNewBlock, PadPointer, this, update.
  repeat never_throws_step.
Qed.

Lemma never_throws_Deallocate (ptr : Z) : never_throws (Deallocate (H:=H) ptr).
Proof. unfold Deallocate, this, update. repeat never_throws_step. Qed.

Lemma never_throws_at_pool {A} (ref : nat) (call : M (MemoryPool * heap H) A) :
  never_throws call → never_throws (at_pool ref call).
Proof.
  intros Hc s. unfold at_pool.
  destruct (s.1 !! ref) as [p |]; [| discriminate].
  specialize (Hc (p, s.2)).
  destruct (call (p, s.2)) as [[a [p' h]] | f];
    [discriminate | intros [= ->]; by destruct Hc].
Qed.

Lemma getMemoryPool_spec (i : Z) (st : list MemoryPool * heap H) :
  getMemoryPool i st =
    if decide (i < 0 ∨ i >= MEMORY_POOL_NUM) then Fail out_of_range
    else Ok (Z.to_nat i, st).
Proof. unfold getMemoryPool. by destruct (decide _). Qed.

(** C8. [HashBucket::getMemoryPool(i)] throws [std::out_of_range]
    exactly when [i < 0] or [i >= MEMORY_POOL_NUM]; otherwise it returns
    the reference to pool [i] and leaves every pool and the heap as they
    were.  [MemoryPool::init(0)] fails its assertion. *)
Theorem contract_violations_fail_fast (i : Z)
    (st : list MemoryPool * heap H) (ps : MemoryPool * heap H) :
  (getMemoryPool i st = Fail out_of_range ↔ i < 0 ∨ i >= MEMORY_POOL_NUM)
  ∧ getMemoryPool i st =
      (if decide (i < 0 ∨ i >= MEMORY_POOL_NUM) then Fail out_of_range
       else Ok (Z.to_nat i, st))
  ∧ init 0 ps = Fail assertion_failure.
Proof.
  rewrite getMemoryPool_spec.
  destruct (decide (i < 0 ∨ i >= MEMORY_POOL_NUM)) as [Hi | Hi].
  - split; [| done]. split; [intros _; exact Hi | done].
  - split; [| done]. split; [discriminate | intros Hi'; by destruct Hi].
Qed.

(** C7. Above the pooling ceiling [MAX_SLOT_SIZE], [useMemory(size)] is
    [operator new(size)] and [freeMemory(ptr, size)] is
    [operator delete(ptr)] (nothing at all for a null [ptr]); the result
    is the same whatever the pools hold, and the pools come out as they
    went in. *)
Theorem oversize_bypasses_pools (size ptr : Z)
    (pools : list MemoryPool) (h : heap H) :
  size > MAX_SLOT_SIZE →
  useMemory size (pools, h) =
    match operator_new size h with
    | Ok (p, h') => Ok (p, (pools, h'))
    | Fail f => Fail f
    end
  ∧ freeMemory ptr size (pools, h) =
      Ok (tt, (pools,
               if decide (ptr = nullptr) then h
               else Heap (words h) (sys_release ptr (runtime h)))).
Proof.
  intros Hsize. unfold useMemory, freeMemory, MAX_SLOT_SIZE in *.
  destruct (decide (size <= 0)); [lia |].
  destruct (decide (size > 512)); [| lia].
  split; [done |].
  destruct (decide (ptr = nullptr)); [| done].
  by destruct h.
Qed.

(** C10. For [0 < size <= MAX_SLOT_SIZE] the index computed by
    [useMemory] and [freeMemory] lies in [[0, MEMORY_POOL_NUM)], so
    [getMemoryPool] returns normally and neither entry point throws
    [std::out_of_range]. *)
Theorem pooled_sizes_never_throw (size ptr : Z)
    (st : list MemoryPool * heap H) :
  0 < size <= MAX_SLOT_SIZE →
  0 <= bucket_index size < MEMORY_POOL_NUM
  ∧ getMemoryPool (bucket_index size) st
      = Ok (Z.to_nat (bucket_index size), st)
  ∧ useMemory size st ≠ Fail out_of_range
  ∧ freeMemory ptr size st ≠ Fail out_of_range.
Proof.
  intros Hsize.
  assert (Hi : 0 <= bucket_index size < MEMORY_POOL_NUM).
  { rewrite bucket_index_small by lia.
    unfold MEMORY_POOL_NUM, MAX_SLOT_SIZE in *.
    Z.div_mod_to_equations; lia. }
  assert (Hg : ∀ st', getMemoryPool (H:=H) (bucket_index size) st'
                      = Ok (Z.to_nat (bucket_index size), st')).
  { intros st'. rewrite getMemoryPool_spec.
    destruct (decide _) as [Hbad | _]; [lia | done]. }
  split; [exact Hi |]. split; [apply Hg |].
  unfold useMemory, freeMemory.
  destruct (decide (size <= 0)); [lia |].
  destruct (decide (size > MAX_SLOT_SIZE)); [lia |].
  split.
  - unfold mbind, M_bind. rewrite Hg.
    apply never_throws_at_pool, never_throws_Allocate.
  - destruct (decide (ptr = nullptr)); [discriminate |].
    unfold mbind, M_bind. rewrite Hg.
    apply never_throws_at_pool, never_throws_Deallocate.
Qed.

End BucketFront.

Lemma oversize_bypasses_pools_witness :
  let h := Heap ∅ (Scenario.Bump 65536 []) in
  let pools := ZPmemoryPool_version1.pools in
  ZPmemoryPool_version1.useMemory 513 (pools, h) =
    match operator_new 513 h with
    | Ok (p, h') => Ok (p, (pools, h'))
    | Fail f => Fail f
    end
  ∧ ZPmemoryPool_version1.freeMemory 65536 513 (pools, h) =
      Ok (tt, (pools,
               if decide (65536 = nullptr) then h
               else Heap (words h) (sys_release 65536 (runtime h)))).
Proof.
  intros h pools. apply (oversize_bypasses_pools 513 65536 pools h).
  unfold ZPmemoryPool_version1.MAX_SLOT_SIZE. lia.
Defined.

Lemma pooled_sizes_never_throw_witness :
  let st := (ZPmemoryPool_version1.pools, Heap ∅ (Scenario.Bump 65536 [])) in
  0 <= ZPmemoryPool_version1.bucket_index 24 < ZPmemoryPool_version1.MEMORY_POOL_NUM
  ∧ ZPmemoryPool_version1.getMemoryPool (ZPmemoryPool_version1.bucket_index 24) st
      = Ok (Z.to_nat (ZPmemoryPool_version1.bucket_index 24), st)
  ∧ ZPmemoryPool_version1.useMemory 24 st ≠ Fail out_of_range
  ∧ ZPmemoryPool_version1.freeMemory 65544 24 st ≠ Fail out_of_range.
Proof.
  intros st. apply (pooled_sizes_never_throw 24 65544 st).
  unfold ZPmemoryPool_version1.MAX_SLOT_SIZE. lia.
Defined.

(** ** Chains of free slots in memory *)

Section Chains.
Implicit Types (m : gmap Z Z) (p q next : Z) (l : list Z).

Lemma chain_inv_nil m p : chain m p [] → p = nullptr.
Proof. by inversion 1. Qed.

Lemma chain_inv_cons m p q l :
  chain m p (q :: l) →
  p = q ∧ p ≠ nullptr ∧ ∃ next, m !! p = Some next ∧ chain m next l.
Proof. inversion 1; subst. eauto. Qed.

Lemma chain_null m l : chain m nullptr l → l = [].
Proof. inversion 1; [done | congruence]. Qed.

Lemma chain_nonnull m p l q : chain m p l → q ∈ l → q ≠ nullptr.
Proof.
  induction 1 as [| p next l Hp Hnext _ IH]; intros Hq.
  - by apply elem_of_nil in Hq.
  - apply elem_of_cons in Hq as [-> | Hq]; auto.
Qed.

Lemma chain_functional m p l1 l2 : chain m p l1 → chain m p l2 → l1 = l2.
Proof.
  intros H1. revert l2.
  induction H1 as [| p next l Hp Hnext _ IH]; intros l2 H2.
  - symmetry. by apply chain_null in H2.
  - inversion H2 as [| p' next' l' _ Hnext' Hl']; subst; [done |].
    f_equal. apply IH. congruence.
Qed.

(** A chain continues as a chain from each of its slots. *)
Lemma chain_from_middle m p l1 q l2 :
  chain m p (l1 ++ q :: l2) → chain m q (q :: l2).
Proof.
  revert p. induction l1 as [| a l1 IH]; intros p Hc; simpl in Hc.
  - by apply chain_inv_cons in Hc as Hc'; destruct Hc' as [-> _].
  - apply chain_inv_cons in Hc as (_ & _ & next & _ & Hc'). eauto.
Qed.

(** A chain that reaches null visits no slot twice. *)
Lemma chain_NoDup m p l : chain m p l → NoDup l.
Proof.
  induction 1 as [| p next l Hp Hnext Hl IH]; constructor; [| done].
  intros Hin. apply list_elem_of_split in Hin as (l1 & l2 & ->).
  pose proof (chain_from_middle _ _ _ _ _ Hl) as Hmid.
  pose proof (chain_cons _ _ _ _ Hp Hnext Hl) as Hall.
  pose proof (chain_functional _ _ _ _ Hmid Hall) as Heq.
  apply (f_equal length) in Heq. simpl in Heq.
  rewrite length_app in Heq. simpl in Heq. lia.
Qed.

(** Writing into a slot outside a chain leaves the chain alone. *)
Lemma chain_insert_other m p l a v :
  chain m p l → a ∉ l → chain (<[a := v]> m) p l.
Proof.
  induction 1 as [| p next l Hp Hnext _ IH]; intros Ha; [constructor |].
  apply not_elem_of_cons in Ha as [Hne Ha].
  econstructor; [done | | by apply IH].
  by rewrite lookup_insert_ne.
Qed.

(** Pushing a slot that is not on the chain in front of it. *)
Lemma chain_push m head l ptr :
  ptr ≠ nullptr → chain m head l → ptr ∉ l →
  chain (<[ptr := head]> m) ptr (ptr :: l).
Proof.
  intros Hptr Hl Hnotin. econstructor; [done | apply lookup_insert_eq |].
  by apply chain_insert_other.
Qed.

(** Storing null in the slot at position [k] cuts the chain in two: the
    first [k + 1] slots, and what its link pointed to. *)
Lemma chain_cut m p l (k : nat) q next :
  chain m p l → l !! k = Some q → m !! q = Some next →
  chain (<[q := nullptr]> m) p (take (S k) l)
  ∧ chain (<[q := nullptr]> m) next (drop (S k) l).
Proof.
  intros Hc. revert k.
  induction Hc as [| p nx l Hp Hnx Hl IH]; intros k Hk Hq; [done |].
  pose proof (chain_NoDup _ _ _ (chain_cons _ _ _ _ Hp Hnx Hl)) as Hnd.
  apply NoDup_cons in Hnd as [Hnotin Hnd].
  destruct k as [| k]; simpl in Hk.
  - injection Hk as <-. assert (next = nx) as -> by congruence.
    simpl. rewrite take_0, drop_0. split.
    + econstructor; [done | apply lookup_insert_eq | constructor].
    + by apply chain_insert_other.
  - destruct (IH k Hk Hq) as [Htake Hdrop].
    split; [| exact Hdrop].
    change (take (S (S k)) (p :: l)) with (p :: take (S k) l).
    econstructor; [done | | exact Htake].
    rewrite lookup_insert_ne; [done |].
    intros ->. apply Hnotin. by eapply list_elem_of_lookup_2.
Qed.

Lemma is_chain_sound m p l : is_chain m p l = true → chain m p l.
Proof.
  revert p. induction l as [| q l IH]; intros p; simpl.
  - intros Hp. apply bool_decide_eq_true_1 in Hp as ->. constructor.
  - intros Hc. apply andb_true_iff in Hc as [Hc Hrest].
    apply andb_true_iff in Hc as [Hpq Hp].
    apply bool_decide_eq_true_1 in Hpq as <-.
    apply bool_decide_eq_true_1 in Hp.
    destruct (m !! p) as [next |] eqn:Hnext; [| done].
    econstructor; eauto.
Qed.

(** Every slot on a chain is non-null and holds a link. *)
Lemma chain_lookup m p l (k : nat) q :
  chain m p l → l !! k = Some q → q ≠ nullptr ∧ ∃ next, m !! q = Some next.
Proof.
  intros Hc Hk.
  apply list_elem_of_split_length in Hk as (l1 & l2 & -> & _).
  apply chain_from_middle in Hc.
  apply chain_inv_cons in Hc as (_ & Hq & next & Hnext & _). eauto.
Qed.

End Chains.

(** ** The thread cache, step by step *)

Lemma bind_ok {S A B} (m : M S A) (k : A → M S B) (s s' : S) (a : A) :
  m s = Ok (a, s') → (m ≫= k) s = k a s'.
Proof. intros Hm. unfold mbind, M_bind. by rewrite Hm. Qed.

Lemma wrap_idemp (z : Z) : wrap (wrap z) = wrap z.
Proof. unfold wrap. apply Z.mod_mod. unfold SIZE_MODULUS, SIZE_WIDTH. lia. Qed.

Lemma wrap_add_l (a b : Z) : wrap (wrap a + b) = wrap (a + b).
Proof. unfold wrap. apply Zplus_mod_idemp_l. Qed.

Lemma wrap_range (z : Z) : 0 <= wrap z < SIZE_MODULUS.
Proof. unfold wrap. apply Z.mod_pos_bound. unfold SIZE_MODULUS, SIZE_WIDTH. lia. Qed.

Section CacheSteps.
Import SupperPool.
Context {C H : Type} `{!CentralCache C} `{!System H}.
Implicit Types (s : state C H) (l : list Z).

Lemma load_chain s p next l :
  p ≠ nullptr → mem s !! p = Some next → load p s = Ok (next, s).
Proof.
  intros Hp Hnext. unfold load.
  destruct (decide (p = nullptr)); [done |]. by rewrite Hnext.
Qed.

Lemma array_get_ok (arr : list Z) (index v : Z) :
  arr !! Z.to_nat index = Some v → array_get arr index = Ok v.
Proof. intros Hv. unfold array_get. by rewrite Hv. Qed.

Lemma array_set_ok (arr : list Z) (index v0 v : Z) :
  arr !! Z.to_nat index = Some v0 →
  array_set arr index v = Ok (<[Z.to_nat index := v]> arr).
Proof.
  intros Hv. unfold array_set. apply lookup_lt_Some in Hv.
  by destruct (decide _).
Qed.

Lemma array_insert_lookup (arr : list Z) (i : nat) (v0 v : Z) :
  arr !! i = Some v0 → <[i := v]> arr !! i = Some v.
Proof. intros Hv. apply list_lookup_insert_eq. by eapply lookup_lt_Some. Qed.

(** The counting loop of [fetchFromCentralCache] walks the chain once and
    yields its length. *)
Lemma count_batch_chain l :
  ∀ (fuel : nat) p batch_num s,
    chain (mem s) p l → (length l ≤ fuel)%nat → wrap batch_num = batch_num →
    count_batch fuel p batch_num s = Ok (wrap (batch_num + Z.of_nat (length l)), s).
Proof.
  induction l as [| q l IH]; intros fuel p batch_num s Hc Hfuel Hb.
  - apply chain_inv_nil in Hc as ->.
    destruct fuel; simpl; rewrite Z.add_0_r, Hb; done.
  - apply chain_inv_cons in Hc as (-> & Hq & next & Hnext & Hc).
    destruct fuel as [| fuel]; simpl in Hfuel; [lia |].
    simpl. destruct (decide (q ≠ nullptr)); [| done].
    rewrite (bind_ok _ _ _ _ _ (load_chain _ _ _ l Hq Hnext)).
    rewrite IH; [| done | lia | apply wrap_idemp].
    rewrite wrap_add_l. do 3 f_equal. lia.
Qed.

Section Walk.
Context (keep_num batch_num return_num : Z).
Hypothesis keep_range : 1 <= keep_num < SIZE_MODULUS.

Lemma wrap_keep (i : Z) : 0 <= i → i <= keep_num → wrap i = i.
Proof. intros. apply wrap_small. lia. Qed.

(** If the chain has a slot at position [keep_num - 1], the loop of
    [returnTocentralCache] stops on it and leaves [return_num] alone. *)
Lemma walk_to_split_hit (k : nat) :
  ∀ l p q i (fuel : nat) s,
    chain (mem s) p l → l !! k = Some q → (k ≤ fuel)%nat →
    0 <= i → i + Z.of_nat k = keep_num - 1 →
    walk_to_split fuel i keep_num batch_num p return_num s
      = Ok ((q, return_num), s).
Proof.
  induction k as [| k IH]; intros l p q i fuel s Hc Hk Hfuel Hi Hik.
  - destruct l as [| q' l]; [done |]. injection Hk as ->.
    apply chain_inv_cons in Hc as (-> & _).
    rewrite <- (wrap_keep (keep_num - 1)) in Hik by lia.
    destruct fuel; simpl; destruct (decide _); try lia; done.
  - destruct l as [| p' l]; [done |]. simpl in Hk.
    apply chain_inv_cons in Hc as (-> & Hp & next & Hnext & Hc).
    destruct fuel as [| fuel]; [lia |]. simpl.
    rewrite (wrap_keep (keep_num - 1)) by lia.
    destruct (decide (i < keep_num - 1)); [| lia].
    rewrite (bind_ok _ _ _ _ _ (load_chain _ _ _ l Hp Hnext)).
    destruct (decide (next = nullptr)) as [-> | Hne].
    { apply chain_null in Hc as ->. done. }
    rewrite (wrap_keep (i + 1)) by lia.
    apply (IH l); [done | done | lia | lia | lia].
Qed.

(** If the chain ends before position [keep_num - 1], the loop stops on
    null with [return_num = batch_num - length]. *)
Lemma walk_to_split_miss l :
  ∀ p i (fuel : nat) s,
    chain (mem s) p l → l ≠ [] → (length l ≤ fuel)%nat →
    0 <= i → i + Z.of_nat (length l) <= keep_num - 1 →
    walk_to_split fuel i keep_num batch_num p return_num s
      = Ok ((nullptr, wrap (batch_num - wrap (i + Z.of_nat (length l)))), s).
Proof.
  induction l as [| q l IH]; intros p i fuel s Hc Hne Hfuel Hi Hik; [done |].
  apply chain_inv_cons in Hc as (-> & Hq & next & Hnext & Hc).
  cbn [length] in Hfuel, Hik. destruct fuel as [| fuel]; [lia |].
  cbn [walk_to_split].
  rewrite (wrap_keep (keep_num - 1)) by lia.
  destruct (decide (i < keep_num - 1)); [| lia].
  rewrite (bind_ok _ _ _ _ _ (load_chain _ _ _ l Hq Hnext)).
  destruct (decide (next = nullptr)) as [-> | Hnext0].
  - apply chain_null in Hc as ->. done.
  - destruct l as [| q' l]; [by apply chain_inv_nil in Hc |].
    rewrite (wrap_keep (i + 1)) by lia.
    rewrite (IH next (i + 1) fuel s); [| done | done | lia | lia | lia].
    replace (i + 1 + Z.of_nat (length (q' :: l)))
      with (i + Z.of_nat (length (q :: q' :: l))) by (cbn [length]; lia).
    done.
Qed.

End Walk.

End CacheSteps.

(** ** Replenishing from the CentralCache *)

Section Replenish.
Import SupperPool.
Context {C H : Type} `{!CentralCache C} `{!System H}.

(** What [allocate] does for a pooled size, whatever the local list holds
    at [index]: the counter drops by one, the head of the local list (if
    any) is unlinked, and the request goes to the CentralCache. *)
Lemma allocate_pooled (fuel : nat) (size : Z) (st : state C H) (n head : Z) :
  0 < size <= MAX_BYTES →
  let index := SizeClass.getIndex size in
  free_list_ (self st) !! Z.to_nat index = Some head →
  free_list_size_ (self st) !! Z.to_nat index = Some n →
  allocate fuel size st =
    ((if decide (head ≠ nullptr)
      then next ← load head; set_free_list index next
      else mret tt);;
     fetchFromCentralCache fuel index)
      (State {| free_list_ := free_list_ (self st);
                free_list_size_ :=
                  <[Z.to_nat index := wrap (n - 1)]> (free_list_size_ (self st)) |}
             (mem st) (central st) (sys st) (calls st)).
Proof.
  intros Hsize index Hhead Hn. unfold allocate.
  destruct (decide (size = 0)); [lia |].
  destruct (decide (size > MAX_BYTES)); [lia |].
  fold index.
  erewrite bind_ok;
    [| unfold get_free_list_size; by rewrite (array_get_ok _ _ _ Hn)].
  erewrite bind_ok;
    [| unfold set_free_list_size; by rewrite (array_set_ok _ _ _ _ Hn)].
  erewrite bind_ok;
    [| unfold get_free_list; simpl; by rewrite (array_get_ok _ _ _ Hhead)].
  done.
Qed.

(** [fetchFromCentralCache] on a non-empty chain [l] handed out by
    [fetchRange]: the head is the result, the local list takes the rest,
    and the counter grows by the length found by [count_batch]. *)
Lemma fetchFromCentralCache_chain (fuel : nat) (index : Z) (s : state C H)
    (start n old : Z) (l : list Z) (c : C) (m : gmap Z Z) :
  fetchRange index (central s) (mem s) = (start, c, m) →
  chain m start l → l ≠ [] → (length l ≤ fuel)%nat →
  free_list_ (self s) !! Z.to_nat index = Some old →
  free_list_size_ (self s) !! Z.to_nat index = Some n →
  ∃ next,
    m !! start = Some next ∧ chain m next (tail l)
    ∧ fetchFromCentralCache fuel index s =
        Ok (start,
            State {| free_list_ := <[Z.to_nat index := next]> (free_list_ (self s));
                     free_list_size_ :=
                       <[Z.to_nat index := wrap (n + wrap (Z.of_nat (length l)))]>
                         (free_list_size_ (self s)) |}
                  m c (sys s) (calls s ++ [FetchRange index])).
Proof.
  intros Hfetch Hc Hne Hfuel Hold Hn.
  destruct l as [| q l]; [done |].
  apply chain_inv_cons in Hc as Hc'. destruct Hc' as (-> & Hq & next & Hnext & Htl).
  exists next. split; [done |]. split; [done |].
  unfold fetchFromCentralCache.
  erewrite bind_ok; [| unfold call_fetchRange; by rewrite Hfetch].
  destruct (decide (q = nullptr)); [done |].
  erewrite bind_ok; [| by apply (load_chain _ _ _ l)].
  erewrite bind_ok;
    [| unfold set_free_list; simpl; by rewrite (array_set_ok _ _ _ _ Hold)].
  erewrite bind_ok; [| by apply (count_batch_chain (q :: l))].
  erewrite bind_ok;
    [| unfold get_free_list_size; simpl; by rewrite (array_get_ok _ _ _ Hn)].
  erewrite bind_ok;
    [| unfold set_free_list_size; simpl; by rewrite (array_set_ok _ _ _ _ Hn)].
  done.
Qed.

(** C5. When [allocate] finds the local list of a class empty, its counter
    at 0, and [fetchRange] hands out a chain of [k >= 1] slots, the call
    returns the head of that chain; [k] is what the counting loop finds
    in one walk of the chain, and the counter ends at [k - 1] in [size_t]
    arithmetic, which is the integer [k - 1] as long as [k <= 2^64]. *)
Theorem replenish_sets_occupancy (fuel : nat) (size : Z) (st : state C H)
    (start : Z) (l : list Z) (c : C) (m : gmap Z Z) :
  0 < size <= MAX_BYTES →
  let index := SizeClass.getIndex size in
  let k := Z.of_nat (length l) in
  free_list_ (self st) !! Z.to_nat index = Some nullptr →
  free_list_size_ (self st) !! Z.to_nat index = Some 0 →
  fetchRange index (central st) (mem st) = (start, c, m) →
  chain m start l → 1 <= k → (length l ≤ fuel)%nat →
  ∃ st',
    allocate fuel size st = Ok (start, st')
    ∧ calls st' = calls st ++ [FetchRange index]
    ∧ mem st' = m
    ∧ count_batch fuel start 0 st' = Ok (wrap k, st')
    ∧ free_list_size_ (self st') !! Z.to_nat index = Some (wrap (k - 1))
    ∧ (k <= SIZE_MODULUS → wrap (k - 1) = k - 1)
    ∧ ∃ next, free_list_ (self st') !! Z.to_nat index = Some next
              ∧ chain (mem st') next (tail l).
Proof.
  intros Hsize index k Hhead Hn Hfetch Hc Hk Hfuel.
  assert (Hne : l ≠ []) by (intros ->; simpl in k; lia).
  set (s1 := State {| free_list_ := free_list_ (self st);
                      free_list_size_ :=
                        <[Z.to_nat index := wrap (0 - 1)]> (free_list_size_ (self st)) |}
                   (mem st) (central st) (sys st) (calls st)).
  destruct (fetchFromCentralCache_chain fuel index s1 start (wrap (0 - 1))
              nullptr l c m) as (next & Hnext & Htl & Hrun);
    [done | done | done | done | done | by eapply array_insert_lookup |].
  eexists. split.
  { rewrite (allocate_pooled fuel size st 0 nullptr) by done.
    destruct (decide (nullptr ≠ nullptr)); [done |].
    erewrite bind_ok; [| reflexivity]. exact Hrun. }
  simpl. split; [done |]. split; [done |].
  split; [by apply (count_batch_chain l) |].
  split.
  { rewrite list_insert_insert_eq.
    erewrite array_insert_lookup by done.
    f_equal. fold k. unfold wrap.
    rewrite Zplus_mod_idemp_l, Zplus_mod_idemp_r. f_equal. lia. }
  split.
  { intros Hle. apply wrap_small. lia. }
  exists next. split; [| done].
  by eapply array_insert_lookup.
Qed.

End Replenish.

(** ** Returning slots to the CentralCache *)

Section Return.
Import SupperPool.
Context {C H : Type} `{!CentralCache C} `{!System H}.

Lemma deallocate_pooled (fuel : nat) (ptr size : Z) (st : state C H)
    (head n : Z) :
  0 < size <= MAX_BYTES → ptr ≠ nullptr →
  let index := SizeClass.getIndex size in
  free_list_ (self st) !! Z.to_nat index = Some head →
  free_list_size_ (self st) !! Z.to_nat index = Some n →
  deallocate fuel ptr size st =
    (if bool_decide (wrap (n + 1) > 256)
     then returnTocentralCache fuel ptr size
     else mret tt) (pushed st index ptr head (wrap (n + 1))).
Proof.
  intros Hsize Hptr index Hhead Hn. unfold deallocate.
  destruct (decide (size > MAX_BYTES)); [lia |]. fold index.
  erewrite bind_ok;
    [| unfold get_free_list; by rewrite (array_get_ok _ _ _ Hhead)].
  erewrite bind_ok; [| unfold store; by destruct (decide (ptr = nullptr))].
  erewrite bind_ok;
    [| unfold set_free_list; simpl; by rewrite (array_set_ok _ _ _ _ Hhead)].
  erewrite bind_ok;
    [| unfold get_free_list_size; simpl; by rewrite (array_get_ok _ _ _ Hn)].
  erewrite bind_ok;
    [| unfold set_free_list_size; simpl; by rewrite (array_set_ok _ _ _ _ Hn)].
  unfold sholdReturnToCentralCache.
  erewrite bind_ok;
    [| erewrite bind_ok; [reflexivity |];
       unfold get_free_list_size; simpl;
       by erewrite array_get_ok by (by eapply array_insert_lookup)].
  destruct (bool_decide (wrap (n + 1) > 256)); [| done].
  erewrite bind_ok;
    [| unfold get_free_list; simpl;
       by erewrite array_get_ok by (by eapply array_insert_lookup)].
  done.
Qed.

Lemma keep_num_range (n : Z) :
  1 < n < SIZE_MODULUS →
  1 <= Z.max (n / 4) 1 < SIZE_MODULUS ∧ Z.max (n / 4) 1 < n.
Proof.
  intros Hn. assert (0 <= n / 4 < n) by (Z.div_mod_to_equations; lia). lia.
Qed.

(** A chain shorter than [keep_num]: [returnTocentralCache] does nothing. *)
Lemma returnTocentralCache_short (fuel : nat) (start size : Z)
    (s : state C H) (n : Z) (l : list Z) :
  let index := SizeClass.getIndex size in
  free_list_size_ (self s) !! Z.to_nat index = Some n →
  1 < n < SIZE_MODULUS →
  chain (mem s) start l → l ≠ [] → (length l ≤ fuel)%nat →
  Z.of_nat (length l) < Z.max (n / 4) 1 →
  returnTocentralCache fuel start size s = Ok (tt, s).
Proof.
  intros index Hn Hrange Hc Hne Hfuel Hshort.
  destruct (keep_num_range n Hrange) as [Hkeep _].
  unfold returnTocentralCache. fold index.
  erewrite bind_ok;
    [| unfold get_free_list_size; by rewrite (array_get_ok _ _ _ Hn)].
  destruct (decide (n <= 1)); [lia |].
  erewrite bind_ok;
    [| by apply (walk_to_split_miss _ _ _ Hkeep l); try lia].
  simpl. by destruct (decide (nullptr ≠ nullptr)).
Qed.

(** A chain of at least [keep_num] slots: the list is cut after the slot
    at position [keep_num - 1], the counter is set to [keep_num], and what
    that slot linked to is handed to [rerurnRange] unless it is null. *)
Lemma returnTocentralCache_split (fuel : nat) (start size : Z)
    (s : state C H) (n old : Z) (l : list Z) :
  let index := SizeClass.getIndex size in
  let keep_num := Z.max (n / 4) 1 in
  free_list_ (self s) !! Z.to_nat index = Some old →
  free_list_size_ (self s) !! Z.to_nat index = Some n →
  1 < n < SIZE_MODULUS →
  chain (mem s) start l → (length l ≤ fuel)%nat →
  keep_num <= Z.of_nat (length l) →
  ∃ q next_node,
    l !! Z.to_nat (keep_num - 1) = Some q
    ∧ mem s !! q = Some next_node
    ∧ returnTocentralCache fuel start size s =
        (if decide (n - keep_num > 0 ∧ next_node ≠ nullptr)
         then call_rerurnRange next_node
                (wrap ((n - keep_num) * SizeClass.roundUp size)) index
         else mret tt)
          (State {| free_list_ := <[Z.to_nat index := start]> (free_list_ (self s));
                    free_list_size_ :=
                      <[Z.to_nat index := keep_num]> (free_list_size_ (self s)) |}
                 (<[q := nullptr]> (mem s)) (central s) (sys s) (calls s)).
Proof.
  intros index keep_num Hold Hn Hrange Hc Hfuel Hlong.
  destruct (keep_num_range n Hrange) as [Hkeep Hle]. fold keep_num in Hkeep, Hle.
  destruct (lookup_lt_is_Some_2 l (Z.to_nat (keep_num - 1))) as [q Hq]; [lia |].
  destruct (chain_lookup _ _ _ _ _ Hc Hq) as [Hq0 [next_node Hnext]].
  exists q, next_node. split; [done |]. split; [done |].
  unfold returnTocentralCache. fold index.
  erewrite bind_ok;
    [| unfold get_free_list_size; by rewrite (array_get_ok _ _ _ Hn)].
  destruct (decide (n <= 1)); [lia |]. fold keep_num.
  erewrite bind_ok;
    [| by apply (walk_to_split_hit _ _ _ Hkeep (Z.to_nat (keep_num - 1)) l);
          try lia].
  simpl. destruct (decide (q ≠ nullptr)); [| done].
  erewrite bind_ok; [| by apply (load_chain _ _ _ l)].
  erewrite bind_ok; [| unfold store; by destruct (decide (q = nullptr))].
  erewrite bind_ok;
    [| unfold set_free_list; simpl; by rewrite (array_set_ok _ _ _ _ Hold)].
  erewrite bind_ok;
    [| unfold set_free_list_size; simpl; by rewrite (array_set_ok _ _ _ _ Hn)].
  rewrite (wrap_small (n - keep_num)) by lia.
  done.
Qed.

(** C3, as the code has it.  Let [deallocate] raise the counter of a
    class to [n > 256], the local chain (the pushed slot included) being
    [ptr :: l].  With [keep_num = max (n / 4) 1]:
    - if the chain has fewer than [keep_num] slots, nothing is returned:
      the cache stays as the push left it, counter included;
    - otherwise the first [keep_num] slots stay, the counter becomes
      [keep_num], and the remaining slots, if any, go to [rerurnRange] as
      one chain in one call, announced as [n - keep_num] slots of the
      rounded size (which is their number when the chain has [n] slots). *)
Theorem return_policy (fuel : nat) (ptr size : Z) (st : state C H)
    (head c0 : Z) (l : list Z) :
  0 < size <= MAX_BYTES → ptr ≠ nullptr →
  let index := SizeClass.getIndex size in
  let n := wrap (c0 + 1) in
  let keep_num := Z.max (n / 4) 1 in
  let bytes := wrap ((n - keep_num) * SizeClass.roundUp size) in
  free_list_ (self st) !! Z.to_nat index = Some head →
  free_list_size_ (self st) !! Z.to_nat index = Some c0 →
  n > 256 →
  chain (mem st) head l → ptr ∉ l → (S (length l) ≤ fuel)%nat →
  ∃ st',
    deallocate fuel ptr size st = Ok (tt, st')
    ∧ (Z.of_nat (S (length l)) < keep_num →
         st' = pushed st index ptr head n)
    ∧ (keep_num <= Z.of_nat (S (length l)) →
         ∃ kept back m1 next_node,
           ptr :: l = kept ++ back
           ∧ Z.of_nat (length kept) = keep_num
           ∧ Z.of_nat (length back) = Z.of_nat (S (length l)) - keep_num
           ∧ chain m1 ptr kept ∧ chain m1 next_node back
           ∧ free_list_ (self st') !! Z.to_nat index = Some ptr
           ∧ free_list_size_ (self st') !! Z.to_nat index = Some keep_num
           ∧ (back = [] → calls st' = calls st ∧ mem st' = m1)
           ∧ (back ≠ [] →
                calls st' = calls st ++ [RerurnRange next_node bytes index]
                ∧ (central st', mem st')
                  = rerurnRange next_node bytes index (central st) m1)).
Proof.
  intros Hsize Hptr index n keep_num bytes Hhead Hc0 Hn Hl Hnotin Hfuel.
  assert (Hrange : 1 < n < SIZE_MODULUS) by (pose proof (wrap_range (c0 + 1)); lia).
  destruct (keep_num_range n Hrange) as [Hkeep Hle].
  fold keep_num in Hkeep, Hle.
  pose proof (chain_push _ _ _ _ Hptr Hl Hnotin) as Hchain.
  set (s1 := pushed st index ptr head n).
  assert (Hrun : deallocate fuel ptr size st
                 = returnTocentralCache fuel ptr size s1).
  { rewrite (deallocate_pooled fuel ptr size st head c0) by done.
    fold n index s1. by rewrite bool_decide_eq_true_2. }
  assert (Hn1 : free_list_size_ (self s1) !! Z.to_nat index = Some n)
    by (by eapply array_insert_lookup).
  assert (Hp1 : free_list_ (self s1) !! Z.to_nat index = Some ptr)
    by (by eapply array_insert_lookup).
  destruct (decide (keep_num <= Z.of_nat (S (length l)))) as [Hlong | Hshort].
  - destruct (returnTocentralCache_split fuel ptr size s1 n ptr (ptr :: l))
      as (q & next_node & Hq & Hnext & Hsplit); [done .. |].
    fold index keep_num bytes in Hq, Hsplit.
    rewrite Hrun, Hsplit. clear Hrun Hsplit.
    subst s1. unfold pushed in *.
    cbn [central mem self sys calls free_list_ free_list_size_] in *.
    destruct (chain_cut _ _ _ _ _ _ Hchain Hq Hnext) as [Hkept Hback].
    set (k := S (Z.to_nat (keep_num - 1))) in *.
    set (m1 := <[q := nullptr]> (<[ptr := head]> (mem st))) in *.
    assert (Happ : ptr :: l = take k (ptr :: l) ++ drop k (ptr :: l))
      by (by rewrite take_drop).
    assert (Hlen : Z.of_nat (length (take k (ptr :: l))) = keep_num).
    { rewrite length_take. cbn [length]. lia. }
    assert (Hlenb : Z.of_nat (length (drop k (ptr :: l)))
                    = Z.of_nat (S (length l)) - keep_num).
    { rewrite length_drop. cbn [length]. lia. }
    revert Happ Hlen Hlenb Hkept Hback.
    generalize (take k (ptr :: l)) (drop k (ptr :: l)).
    intros kept back Happ Hlen Hlenb Hkept Hback.
    destruct (decide (n - keep_num > 0 ∧ next_node ≠ nullptr)) as [[_ Hne] | Hno].
    + unfold call_rerurnRange. cbn [central mem self sys calls].
      destruct (rerurnRange next_node bytes index (central st) m1)
        as [c' m'] eqn:Hret.
      eexists. split; [reflexivity |]. split; [lia |]. intros _.
      exists kept, back, m1, next_node.
      cbn [central mem self sys calls free_list_ free_list_size_].
      do 5 (split; [done |]).
      split; [by eapply array_insert_lookup |].
      split; [by eapply array_insert_lookup |].
      split; [| done].
      intros ->. by apply chain_inv_nil in Hback.
    + assert (next_node = nullptr) as ->.
      { destruct (decide (next_node = nullptr)); [done |].
        destruct Hno. split; [lia | done]. }
      apply chain_null in Hback as Hnil.
      eexists. split; [reflexivity |]. split; [lia |]. intros _.
      exists kept, back, m1, nullptr.
      cbn [central mem self sys calls free_list_ free_list_size_].
      do 5 (split; [done |]).
      split; [by eapply array_insert_lookup |].
      split; [by eapply array_insert_lookup |].
      split; [done |]. intros Hne. by destruct Hne.
  - exists s1. split.
    + rewrite Hrun.
      apply (returnTocentralCache_short fuel ptr size s1 n (ptr :: l));
        [done | done | done | done | done | cbn [length]; lia].
    + split; [done | lia].
Qed.

End Return.

(** ** Every pooled allocation goes to the CentralCache *)

Section AlwaysFetch.
Import SupperPool.
Context {C H : Type} `{!CentralCache C} `{!System H}.

Lemma keeps_calls_ret {A} (a : A) : keeps_calls (mret a : M (state C H) A).
Proof. intros s a' s' [= _ <-]. done. Qed.

Lemma keeps_calls_bind {A B} (m : M (state C H) A) (k : A → M (state C H) B) :
  keeps_calls m → (∀ a, keeps_calls (k a)) → keeps_calls (m ≫= k).
Proof.
  intros Hm Hk s b s'. unfold mbind, M_bind.
  destruct (m s) as [[a s1] | f] eqn:Hms; [| done].
  intros Hks. rewrite (Hk _ _ _ _ Hks). by eapply Hm.
Qed.

Lemma keeps_calls_load (a : Z) : keeps_calls (load (C:=C) (H:=H) a).
Proof.
  intros s v s'. unfold load. destruct (decide _); [done |].
  destruct (mem s !! a); [| done]. by intros [= _ <-].
Qed.

Lemma keeps_calls_get_free_list (i : Z) :
  keeps_calls (get_free_list (C:=C) (H:=H) i).
Proof.
  intros s v s'. unfold get_free_list.
  destruct (array_get _ _); [| done]. by intros [= _ <-].
Qed.

Lemma keeps_calls_set_free_list (i v : Z) :
  keeps_calls (set_free_list (C:=C) (H:=H) i v).
Proof.
  intros s u s'. unfold set_free_list.
  destruct (array_set _ _ _); [| done]. by intros [= _ <-].
Qed.

Lemma keeps_calls_get_free_list_size (i : Z) :
  keeps_calls (get_free_list_size (C:=C) (H:=H) i).
Proof.
  intros s v s'. unfold get_free_list_size.
  destruct (array_get _ _); [| done]. by intros [= _ <-].
Qed.

Lemma keeps_calls_set_free_list_size (i v : Z) :
  keeps_calls (set_free_list_size (C:=C) (H:=H) i v).
Proof.
  intros s u s'. unfold set_free_list_size.
  destruct (array_set _ _ _); [| done]. by intros [= _ <-].
Qed.

Lemma keeps_calls_count_batch (fuel : nat) :
  ∀ current batch_num,
    keeps_calls (count_batch (C:=C) (H:=H) fuel current batch_num).
Proof.
  induction fuel as [| fuel IH]; intros current batch_num; simpl;
    destruct (decide _); try apply keeps_calls_ret; [done |].
  apply keeps_calls_bind; [apply keeps_calls_load | intros next; apply IH].
Qed.

#[local] Hint Resolve keeps_calls_ret keeps_calls_load keeps_calls_get_free_list
  keeps_calls_set_free_list keeps_calls_get_free_list_size
  keeps_calls_set_free_list_size keeps_calls_count_batch : calls.

Ltac keeps_calls_step :=
  match goal with
  | |- keeps_calls (mbind _ _) => apply keeps_calls_bind; [| intros ?]
  | |- keeps_calls (if ?c then _ else _) => destruct c
  | |- keeps_calls _ => solve [eauto with calls]
  end.

(** For a pooled size, a call of [allocate] that returns has made exactly
    one call to the CentralCache, a [fetchRange] for the class of the
    size: this does not depend on what the local list holds. *)
Lemma allocate_always_fetches (fuel : nat) (size : Z) (st st' : state C H) (r : Z) :
  0 <= size <= MAX_BYTES →
  allocate fuel size st = Ok (r, st') →
  calls st' = calls st
              ++ [FetchRange (SizeClass.getIndex
                                (if decide (size = 0) then ALIGNMENT else size))].
Proof.
  intros Hsize. unfold allocate.
  set (size' := if decide (size = 0) then ALIGNMENT else size).
  assert (Hsize' : ¬ size' > MAX_BYTES).
  { subst size'. unfold ALIGNMENT, MAX_BYTES in *. destruct (decide _); lia. }
  destruct (decide (size' > MAX_BYTES)); [done |].
  set (index := SizeClass.getIndex size').
  set (before :=
         (n ← get_free_list_size index;
          set_free_list_size index (wrap (n - 1));;
          ptr ← get_free_list index;
          if decide (ptr ≠ nullptr)
          then next ← load ptr; set_free_list index next
          else mret tt) : M (state C H) unit).
  assert (Hbefore : keeps_calls before)
    by (subst before; repeat keeps_calls_step).
  set (after := λ start : Z,
         (if decide (start = nullptr) then mret nullptr
          else
            next ← load start;
            set_free_list index next;;
            batch_num ← count_batch fuel start 0;
            size ← get_free_list_size index;
            set_free_list_size index (wrap (size + batch_num));;
            mret start) : M (state C H) Z).
  assert (Hafter : ∀ start, keeps_calls (after start))
    by (intros start; subst after; cbv beta; repeat keeps_calls_step).
  intros Hrun.
  assert (Hshape : (before ≫= λ _, call_fetchRange index ≫= after) st
                   = Ok (r, st')).
  { rewrite <- Hrun. unfold before, fetchFromCentralCache, after, mbind, M_bind.
    destruct (get_free_list_size index st) as [[cnt s1] |]; [| done].
    destruct (set_free_list_size index (wrap (cnt - 1)) s1) as [[[] s2] |]; [| done].
    destruct (get_free_list index s2) as [[ptr s3] |]; [| done].
    destruct (decide (ptr ≠ nullptr)); [| done].
    destruct (load ptr s3) as [[next s4] |]; [| done]. done. }
  unfold mbind, M_bind in Hshape.
  destruct (before st) as [[u s1] |] eqn:Hb; [| done].
  unfold call_fetchRange at 1 in Hshape.
  destruct (fetchRange index (central s1) (mem s1)) as [[start c] m].
  apply Hafter in Hshape. rewrite Hshape. simpl.
  by rewrite (Hbefore _ _ _ Hb).
Qed.

End AlwaysFetch.

(** ** Requests of size zero *)

Section ZeroSize.
Import SupperPool.
Context {C H : Type} `{!CentralCache C} `{!System H}.

(** C2, as the code has it.  [HashBucket::useMemory(0)] returns null and
    leaves every pool and the heap as they were.  [ThreadCache::allocate(0)]
    does not: it is [allocate(ALIGNMENT)], a request served from class 0
    through the CentralCache. *)
Theorem zero_size_requests (fuel : nat)
    (pst : list ZPmemoryPool_version1.MemoryPool * heap H) (st : state C H) :
  ZPmemoryPool_version1.useMemory 0 pst = Ok (nullptr, pst)
  ∧ allocate fuel 0 st = allocate fuel ALIGNMENT st
  ∧ SizeClass.getIndex ALIGNMENT = 0
  ∧ ∀ r st', allocate fuel 0 st = Ok (r, st') →
             calls st' = calls st ++ [FetchRange 0].
Proof.
  split; [done |]. split; [done |]. split; [done |].
  intros r st' Hrun.
  by apply allocate_always_fetches in Hrun; [| unfold MAX_BYTES; lia].
Qed.

End ZeroSize.

(** ** The thread cache on concrete call sequences *)

Section Runs.
Import SupperPool Scenario.

(** C2 as stated fails for the thread cache: on a fresh thread whose
    CentralCache hands out the chain [4096 -> 4104], [allocate(0)] returns
    the slot 4096, leaves 4104 on the local list of class 0 and sets the
    counter of that class to 1. *)
Lemma allocate_zero_is_served :
  let st := fresh [[4096; 4104]] in
  (∃ st', allocate 8 0 st = Ok (4096, st')
          ∧ free_list_ (self st') !! 0%nat = Some 4104
          ∧ free_list_size_ (self st') !! 0%nat = Some 1
          ∧ calls st' = [FetchRange 0])
  ∧ ¬ (∃ st', allocate 8 0 st = Ok (nullptr, st') ∧ self st' = self st).
Proof.
  intros st. split.
  - eexists. split; [vm_compute; reflexivity |]. done.
  - intros (st' & Hrun & _). vm_compute in Hrun. discriminate.
Qed.

(** C1 fails on the code.  The first [allocate(8)] of a thread receives
    the batch [4096 -> 4104 -> 4112] and keeps [4104 -> 4112]; the second
    [allocate(8)] finds that list non-empty, unlinks its head, and then
    calls [fetchRange] all the same: it returns the head 8192 of the new
    batch, and the local list becomes the rest of that batch, the slots
    4104 and 4112 being lost. *)
Theorem allocate_skips_local_list :
  let st0 := fresh [[4096; 4104; 4112]; [8192; 8200]] in
  ∃ st1 st2,
    allocate 8 8 st0 = Ok (4096, st1)
    ∧ free_list_ (self st1) !! 0%nat = Some 4104
    ∧ chain (mem st1) 4104 [4104; 4112]
    ∧ allocate 8 8 st1 = Ok (8192, st2)
    ∧ calls st2 = calls st1 ++ [FetchRange 0]
    ∧ free_list_ (self st2) !! 0%nat = Some 8200
    ∧ free_list_size_ (self st2) !! 0%nat = Some 3
    ∧ chain (mem st2) 8200 [8200].
Proof.
  intros st0. eexists _, _.
  split; [vm_compute; reflexivity |].
  split; [reflexivity |].
  split; [by apply is_chain_sound |].
  split; [vm_compute; reflexivity |].
  split; [reflexivity |].
  split; [reflexivity |].
  split; [reflexivity |].
  by apply is_chain_sound.
Qed.

(** C4 fails on the code.  A thread allocates four slots of 8 bytes, the
    CentralCache handing out 65 slots each time, and then frees the first
    one.  Each allocation after the first throws the local list away and
    adds a whole batch to the counter, so the counter stands at 256 over
    64 slots; the [deallocate] makes that 257 over 65, keeps 64, and
    passes the single slot 16896 to [rerurnRange]. *)
Theorem single_slot_batch_returned :
  let st0 := fresh [slots 4096 8 65; slots 8192 8 65;
                    slots 12288 8 65; slots 16384 8 65] in
  ∃ st st',
    (p ← allocate 65 8; allocate 65 8;; allocate 65 8;; allocate 65 8;;
     mret p) st0 = Ok (4096, st)
    ∧ free_list_size_ (self st) !! 0%nat = Some 256
    ∧ deallocate 65 4096 8 st = Ok (tt, st')
    ∧ calls st' = calls st ++ [RerurnRange 16896 (193 * 8) 0]
    ∧ chain (mem st') 16896 [16896]
    ∧ free_list_size_ (self st') !! 0%nat = Some 64.
Proof.
  intros st0. eexists _, _.
  split; [vm_compute; reflexivity |].
  split; [reflexivity |].
  split; [vm_compute; reflexivity |].
  split; [reflexivity |].
  split; [by apply is_chain_sound |].
  reflexivity.
Qed.

(** C3 as stated fails in two ways.
    - After one served and two refused allocations the counter of class 0
      has wrapped to [2^64 - 2] over an empty list; freeing the slot makes
      it [2^64 - 1], far above 256, and nothing is returned: the chain ends
      before the split point, and list and counter stay as pushed.
    - After eight allocations served with 33 slots each, the counter
      stands at 256 over 32 slots; freeing a slot makes it 257 over 33,
      fewer than the 64 to keep, and again nothing is returned and the
      counter stays at 257. *)
Lemma return_policy_counterexample :
  (let st0 := fresh [[4096]] in
   ∃ st st',
     (p ← allocate 8 8; allocate 8 8;; allocate 8 8;; mret p) st0
       = Ok (4096, st)
     ∧ free_list_size_ (self st) !! 0%nat = Some (2 ^ 64 - 2)
     ∧ deallocate 8 4096 8 st = Ok (tt, st')
     ∧ free_list_size_ (self st') !! 0%nat = Some (2 ^ 64 - 1)
     ∧ 2 ^ 64 - 1 > 256
     ∧ calls st' = calls st
     ∧ chain (mem st') 4096 [4096]
     ∧ 2 ^ 64 - 1 ≠ Z.max ((2 ^ 64 - 1) / 4) 1
     ∧ 2 ^ 64 - 1 ≠ 1)
  ∧ (let st0 := fresh [slots 4096 8 33; slots 8192 8 33; slots 12288 8 33;
                       slots 16384 8 33; slots 20480 8 33; slots 24576 8 33;
                       slots 28672 8 33; slots 32768 8 33] in
     ∃ st st',
       (p ← allocate 33 8; allocate 33 8;; allocate 33 8;; allocate 33 8;;
        allocate 33 8;; allocate 33 8;; allocate 33 8;; allocate 33 8;;
        mret p) st0 = Ok (4096, st)
       ∧ free_list_size_ (self st) !! 0%nat = Some 256
       ∧ deallocate 33 4096 8 st = Ok (tt, st')
       ∧ free_list_size_ (self st') !! 0%nat = Some 257
       ∧ calls st' = calls st
       ∧ chain (mem st') 4096 (4096 :: slots 32776 8 32)
       ∧ 257 ≠ Z.max (257 / 4) 1
       ∧ 257 ≠ 33).
Proof.
  split; intros st0; eexists _, _.
  - split; [vm_compute; reflexivity |].
    split; [reflexivity |].
    split; [vm_compute; reflexivity |].
    split; [reflexivity |].
    split; [done |].
    split; [reflexivity |].
    split; [by apply is_chain_sound |].
    split; vm_compute; discriminate.
  - split; [vm_compute; reflexivity |].
    split; [reflexivity |].
    split; [vm_compute; reflexivity |].
    split; [reflexivity |].
    split; [reflexivity |].
    split; [by apply is_chain_sound; vm_compute |].
    split; vm_compute; discriminate.
Qed.

End Runs.

Section Witnesses.
Import SupperPool Scenario.

Lemma replenish_sets_occupancy_witness :
  ∃ st',
    allocate 3 8 (fresh [[4096; 4104; 4112]]) = Ok (4096, st')
    ∧ calls st' = [FetchRange 0]
    ∧ free_list_size_ (self st') !! 0%nat = Some 2.
Proof.
  destruct (replenish_sets_occupancy 3 8 (fresh [[4096; 4104; 4112]])
              4096 [4096; 4104; 4112] [] (link [4096; 4104; 4112] ∅))
    as (st' & Hrun & Hcalls & _ & _ & Hcount & _).
  - unfold MAX_BYTES. lia.
  - reflexivity.
  - reflexivity.
  - reflexivity.
  - by apply is_chain_sound.
  - simpl. lia.
  - simpl. lia.
  - exists st'. split; [exact Hrun |]. split; [exact Hcalls | exact Hcount].
Defined.

Lemma return_policy_witness :
  ∃ st' next_node,
    deallocate 257 8192 8 (holding 0 (slots 4096 8 256) 256 []) = Ok (tt, st')
    ∧ free_list_size_ (self st') !! 0%nat = Some 64
    ∧ calls st' = [RerurnRange next_node (193 * 8) 0].
Proof.
  destruct (return_policy 257 8192 8 (holding 0 (slots 4096 8 256) 256 [])
              4096 256 (slots 4096 8 256))
    as (st' & Hrun & _ & Hlong).
  - unfold MAX_BYTES. lia.
  - done.
  - reflexivity.
  - reflexivity.
  - vm_compute. reflexivity.
  - apply is_chain_sound. vm_compute. reflexivity.
  - apply (bool_decide_eq_true_1 (8192 ∉ slots 4096 8 256)).
    vm_compute. reflexivity.
  - vm_compute. lia.
  - destruct Hlong
      as (kept & back & m1 & next_node & _ & _ & Hlen & _ & _ & _ & Hcount & _ & Hcall).
    { vm_compute. discriminate. }
    exists st', next_node. split; [exact Hrun |]. split; [exact Hcount |].
    destruct Hcall as [Hcalls _]; [| exact Hcalls].
    intros ->. vm_compute in Hlen. discriminate.
Defined.

End Witnesses.

(** ** The two slab pools *)

Section SlabPools.
Import Scenario.

(** C9 fails on the code.  Both pools are built with blocks of 4096
    bytes, initialised for slots of 8 bytes, and asked for two slots, the
    system handing out blocks from address 65536 on.
    - version1 carves both slots from one block: 65544 and 65552, inside
      the block.
    - src requests a block for each slot (its [last_slot_] stays null, so
      the cursor always compares as past the end) and returns the address
      [block + 4096 - 8 + 1]: 69625 and 73721, one byte past the last
      place a slot fits in. *)
Theorem slab_pools_diverge :
  let h := Heap ∅ (Bump 65536 []) in
  (∃ s,
     (ZPmemoryPool_version1.init 8;;
      a ← ZPmemoryPool_version1.Allocate;
      b ← ZPmemoryPool_version1.Allocate;
      mret (a, b)) (ZPmemoryPool_version1.MemoryPool_ctor 4096, h)
       = Ok ((65544, 65552), s)
     ∧ next_block (runtime s.2) = 65536 + 4096
     ∧ 65536 <= 65544 ∧ 65552 + 8 <= 65536 + 4096)
  ∧ ∀ (PadPointer : Z → Z → Z) (junk : ZPmemoryPool_src.MemoryPool),
      ∃ s,
        (ZPmemoryPool_src.init 8;;
         a ← ZPmemoryPool_src.Allocate PadPointer;
         b ← ZPmemoryPool_src.Allocate PadPointer;
         mret (a, b)) (ZPmemoryPool_src.MemoryPool_ctor 4096 junk, h)
          = Ok ((69625, 73721), s)
        ∧ next_block (runtime s.2) = 65536 + 2 * 4096
        ∧ 69625 + 8 > 65536 + 4096
        ∧ 73721 + 8 > 69632 + 4096.
Proof.
  intros h. split.
  - eexists. split; [vm_compute; reflexivity |]. done.
  - intros PadPointer junk.
    eexists. split; [vm_compute; reflexivity |]. done.
Qed.

End SlabPools.

(** * Further properties of the code *)

(** ** Rounding to the alignment *)

Section RoundUp.
Import SupperPool.

Lemma land_clear_low3 (x : Z) :
  0 <= x < SIZE_MODULUS → Z.land x (SIZE_MODULUS - 8) = 8 * (x / 8).
Proof.
  intros Hx.
  replace (SIZE_MODULUS - 8) with (Z.shiftl (Z.ones 61) 3) by reflexivity.
  replace (8 * (x / 8)) with (Z.shiftl (Z.shiftr x 3) 3)
    by (rewrite Z.shiftl_mul_pow2, Z.shiftr_div_pow2 by lia;
        change (2 ^ 3) with 8; lia).
  apply Z.bits_inj'. intros i Hi.
  rewrite Z.land_spec, !Z.shiftl_spec by lia.
  destruct (Z.lt_ge_cases i 3) as [Hlow | Hhigh].
  - rewrite !(Z.testbit_neg_r _ (i - 3)) by lia. apply andb_false_r.
  - rewrite Z.shiftr_spec by lia. replace (i - 3 + 3) with i by lia.
    destruct (Z.lt_ge_cases i 64) as [Hin | Hout].
    + rewrite Z.ones_spec_low by lia. apply andb_true_r.
    + rewrite Z.ones_spec_high by lia. rewrite andb_false_r.
      destruct (Z.eq_dec x 0) as [-> | Hnz]; [by rewrite Z.bits_0 |].
      symmetry. apply Z.bits_above_log2; [lia |].
      apply Z.log2_lt_pow2; [lia |].
      eapply Z.lt_le_trans; [apply Hx |].
      unfold SIZE_MODULUS, SIZE_WIDTH. apply Z.pow_le_mono_r; lia.
Qed.

Lemma roundUp_small (bytes : Z) :
  0 <= bytes <= SIZE_MODULUS - ALIGNMENT →
  SizeClass.roundUp bytes = 8 * ((bytes + 7) / 8).
Proof.
  unfold SizeClass.roundUp, ALIGNMENT. intros Hb.
  assert (Hm : SIZE_MODULUS = 18446744073709551616) by reflexivity.
  destruct (Z.eq_dec bytes (SIZE_MODULUS - 8)) as [-> | Hne].
  { vm_compute. reflexivity. }
  rewrite (wrap_small (bytes + 8)) by lia.
  rewrite (wrap_small (bytes + 8 - 1)) by lia.
  change (wrap (Z.lnot (wrap (8 - 1)))) with (SIZE_MODULUS - 8).
  rewrite land_clear_low3 by lia. do 2 f_equal. lia.
Qed.

(** X1. [roundUp] yields the least multiple of the alignment that is not
    below its argument, as long as that multiple fits in a [size_t]. *)
Theorem roundUp_least_multiple (bytes : Z) :
  0 <= bytes <= SIZE_MODULUS - ALIGNMENT →
  let r := SizeClass.roundUp bytes in
  r mod ALIGNMENT = 0 ∧ bytes <= r < bytes + ALIGNMENT
  ∧ r = ALIGNMENT * ceil_div bytes ALIGNMENT
  ∧ SizeClass.roundUp r = r.
Proof.
  intros Hb r.
  assert (Hr : r = 8 * ((bytes + 7) / 8)) by (by apply roundUp_small).
  assert (Hm : SIZE_MODULUS = 18446744073709551616) by reflexivity.
  unfold ALIGNMENT in *.
  assert (Hrange : bytes <= r < bytes + 8)
    by (rewrite Hr; Z.div_mod_to_equations; lia).
  split; [rewrite Hr; Z.div_mod_to_equations; lia |].
  split; [done |].
  split; [by rewrite ceil_div_8 |].
  assert (Hr8 : r <= SIZE_MODULUS - 8)
    by (rewrite Hr in *; Z.div_mod_to_equations; lia).
  rewrite roundUp_small by (unfold ALIGNMENT; lia).
  rewrite Hr. Z.div_mod_to_equations; lia.
Qed.

Lemma roundUp_least_multiple_witness :
  let r := SizeClass.roundUp 13 in
  r mod ALIGNMENT = 0 ∧ 13 <= r < 13 + ALIGNMENT
  ∧ r = ALIGNMENT * ceil_div 13 ALIGNMENT
  ∧ SizeClass.roundUp r = r.
Proof. apply (roundUp_least_multiple 13). vm_compute. split; discriminate. Defined.

(** X2. For a pooled size, the rounded size is the slot size of its
    class: [roundUp s = ALIGNMENT * (getIndex s + 1)]; two pooled sizes
    share a class exactly when they round to the same size. *)
Theorem roundUp_is_class_size (s t : Z) :
  1 <= s <= MAX_BYTES → 1 <= t <= MAX_BYTES →
  SizeClass.roundUp s = ALIGNMENT * (SizeClass.getIndex s + 1)
  ∧ (SizeClass.getIndex s = SizeClass.getIndex t
     ↔ SizeClass.roundUp s = SizeClass.roundUp t).
Proof.
  intros Hs Ht. unfold MAX_BYTES in *.
  assert (Hm : SIZE_MODULUS = 18446744073709551616) by reflexivity.
  rewrite !roundUp_small by (unfold ALIGNMENT; lia).
  rewrite !getIndex_small by (unfold MAX_BYTES; lia).
  unfold ALIGNMENT.
  destruct (Z.max_spec s 8) as [[? ->] | [? ->]];
    destruct (Z.max_spec t 8) as [[? ->] | [? ->]];
    (split; [| split; intros Heq]); Z.div_mod_to_equations; lia.
Qed.

Lemma roundUp_is_class_size_witness :
  SizeClass.roundUp 13 = ALIGNMENT * (SizeClass.getIndex 13 + 1)
  ∧ (SizeClass.getIndex 13 = SizeClass.getIndex 16
     ↔ SizeClass.roundUp 13 = SizeClass.roundUp 16).
Proof.
  apply (roundUp_is_class_size 13 16); vm_compute; split; discriminate.
Defined.

End RoundUp.

(** ** More on the thread cache *)

Section ThreadCacheMore.
Import SupperPool.
Context {C H : Type} `{!CentralCache C} `{!System H}.

(** X3. Above [MAX_BYTES] the thread cache is bypassed: [allocate] is
    [malloc] (null when the system refuses) and [deallocate] is [free];
    the free lists, the counters, raw memory and the CentralCache are left
    alone and no call is made to the CentralCache. *)
Theorem oversize_bypasses_thread_cache (fuel : nat) (size ptr : Z)
    (st : state C H) :
  size > MAX_BYTES →
  allocate fuel size st =
    Ok (match sys_alloc size (sys st) with
        | Some (p, h) =>
            (p, State (self st) (mem st) (central st) h (calls st))
        | None => (nullptr, st)
        end)
  ∧ deallocate fuel ptr size st =
      Ok (tt, State (self st) (mem st) (central st)
                    (sys_release ptr (sys st)) (calls st)).
Proof.
  intros Hsize. unfold allocate, deallocate, malloc, free, MAX_BYTES in *.
  destruct (decide (size = 0)); [lia |].
  destruct (decide (size > 256)); [| lia].
  split; [| done].
  by destruct (sys_alloc size (sys st)) as [[p h] |].
Qed.

(** X4. When the CentralCache has nothing to give, [allocate] returns
    null after that one [fetchRange]: it does not retry.  The counter of
    the class has been decremented all the same (modulo [2^64]), and a
    slot at the head of the local list has been unlinked. *)
Theorem refused_fetch_returns_null (fuel : nat) (size : Z) (st : state C H)
    (n head next : Z) (c : C) (m : gmap Z Z) :
  0 < size <= MAX_BYTES →
  let index := SizeClass.getIndex size in
  free_list_ (self st) !! Z.to_nat index = Some head →
  free_list_size_ (self st) !! Z.to_nat index = Some n →
  (head ≠ nullptr → mem st !! head = Some next) →
  fetchRange index (central st) (mem st) = (nullptr, c, m) →
  ∃ st',
    allocate fuel size st = Ok (nullptr, st')
    ∧ calls st' = calls st ++ [FetchRange index]
    ∧ free_list_size_ (self st') !! Z.to_nat index = Some (wrap (n - 1))
    ∧ free_list_ (self st') !! Z.to_nat index
        = Some (if decide (head = nullptr) then nullptr else next)
    ∧ mem st' = m ∧ central st' = c ∧ sys st' = sys st.
Proof.
  intros Hsize index Hhead Hn Hnext Hfetch.
  rewrite (allocate_pooled fuel size st n head) by done. fold index.
  destruct (decide (head ≠ nullptr)) as [Hne | Heq].
  - specialize (Hnext Hne).
    erewrite bind_ok;
      [| erewrite bind_ok; [| by apply (load_chain _ _ _ [])];
         unfold set_free_list; simpl; by rewrite (array_set_ok _ _ _ _ Hhead)].
    unfold fetchFromCentralCache.
    erewrite bind_ok; [| unfold call_fetchRange; simpl; by rewrite Hfetch].
    destruct (decide (nullptr = nullptr)); [| done].
    eexists. split; [reflexivity |]. simpl.
    split; [done |].
    split; [by eapply array_insert_lookup |].
    split; [| done].
    destruct (decide (head = nullptr)); [done |].
    by eapply array_insert_lookup.
  - assert (head = nullptr) as -> by (by destruct (decide (head = nullptr))).
    erewrite bind_ok; [| reflexivity].
    unfold fetchFromCentralCache.
    erewrite bind_ok; [| unfold call_fetchRange; simpl; by rewrite Hfetch].
    destruct (decide (nullptr = nullptr)); [| done].
    eexists. split; [reflexivity |]. simpl.
    split; [done |].
    split; [by eapply array_insert_lookup |].
    split; [| done]. done.
Qed.

(** X5. As long as the counter stays at or below 256, [deallocate] only
    caches the slot: it becomes the head of the local chain, the counter
    grows by one, and the CentralCache is not called. *)
Theorem deallocate_caches_slot (fuel : nat) (ptr size : Z) (st : state C H)
    (head n : Z) (l : list Z) :
  0 < size <= MAX_BYTES → ptr ≠ nullptr →
  let index := SizeClass.getIndex size in
  free_list_ (self st) !! Z.to_nat index = Some head →
  free_list_size_ (self st) !! Z.to_nat index = Some n →
  wrap (n + 1) <= 256 →
  chain (mem st) head l → ptr ∉ l →
  ∃ st',
    deallocate fuel ptr size st = Ok (tt, st')
    ∧ free_list_ (self st') !! Z.to_nat index = Some ptr
    ∧ chain (mem st') ptr (ptr :: l)
    ∧ free_list_size_ (self st') !! Z.to_nat index = Some (wrap (n + 1))
    ∧ calls st' = calls st ∧ central st' = central st ∧ sys st' = sys st
    ∧ ∀ j, j ≠ Z.to_nat index →
           free_list_ (self st') !! j = free_list_ (self st) !! j
           ∧ free_list_size_ (self st') !! j = free_list_size_ (self st) !! j.
Proof.
  intros Hsize Hptr index Hhead Hn Hle Hl Hnotin.
  exists (pushed st index ptr head (wrap (n + 1))). split.
  - rewrite (deallocate_pooled fuel ptr size st head n) by done.
    by rewrite bool_decide_eq_false_2 by lia.
  - unfold pushed. simpl.
    split; [by eapply array_insert_lookup |].
    split; [by apply chain_push |].
    split; [by eapply array_insert_lookup |].
    do 3 (split; [done |]).
    intros j Hj. by rewrite !list_lookup_insert_ne.
Qed.

(** X6. What [allocate] does when the local list of the class is not
    empty and the CentralCache hands out a batch [b]: the slot returned is
    the head of [b], not the local head; the local list becomes the rest
    of [b], so the slots it held are no longer reachable from the cache;
    and the counter moves from [n] to [n - 1 + length b]. *)
Theorem allocate_replaces_local_list (fuel : nat) (size : Z) (st : state C H)
    (n head start : Z) (l b : list Z) (c : C) (m : gmap Z Z) :
  0 < size <= MAX_BYTES →
  let index := SizeClass.getIndex size in
  free_list_ (self st) !! Z.to_nat index = Some head →
  free_list_size_ (self st) !! Z.to_nat index = Some n →
  chain (mem st) head l → l ≠ [] →
  fetchRange index (central st) (mem st) = (start, c, m) →
  chain m start b → b ≠ [] → (length b ≤ fuel)%nat →
  ∃ st' next,
    allocate fuel size st = Ok (start, st')
    ∧ calls st' = calls st ++ [FetchRange index]
    ∧ mem st' = m
    ∧ free_list_ (self st') !! Z.to_nat index = Some next
    ∧ chain (mem st') next (tail b)
    ∧ free_list_size_ (self st') !! Z.to_nat index
        = Some (wrap (n - 1 + Z.of_nat (length b))).
Proof.
  intros Hsize index Hhead Hn Hl Hlne Hfetch Hb Hbne Hfuel.
  destruct l as [| q l]; [done |].
  apply chain_inv_cons in Hl as (-> & Hq & nx & Hnx & _).
  set (s1 := State {| free_list_ := <[Z.to_nat index := nx]> (free_list_ (self st));
                      free_list_size_ :=
                        <[Z.to_nat index := wrap (n - 1)]> (free_list_size_ (self st)) |}
                   (mem st) (central st) (sys st) (calls st)).
  destruct (fetchFromCentralCache_chain fuel index s1 start (wrap (n - 1))
              nx b c m) as (next & Hnext & Htl & Hrun);
    [done | done | done | done | by eapply array_insert_lookup
    | by eapply array_insert_lookup |].
  exists (State {| free_list_ := <[Z.to_nat index := next]> (free_list_ (self s1));
                   free_list_size_ :=
                     <[Z.to_nat index
                       := wrap (wrap (n - 1) + wrap (Z.of_nat (length b)))]>
                       (free_list_size_ (self s1)) |}
                m c (sys s1) (calls s1 ++ [FetchRange index])), next.
  split.
  { rewrite (allocate_pooled fuel size st n q) by done. fold index.
    destruct (decide (q ≠ nullptr)); [| done].
    erewrite bind_ok;
      [| erewrite bind_ok; [| by apply (load_chain _ _ _ [])];
         unfold set_free_list; simpl; by rewrite (array_set_ok _ _ _ _ Hhead)].
    exact Hrun. }
  simpl. split; [done |]. split; [done |].
  split; [by eapply array_insert_lookup; eapply array_insert_lookup |].
  split; [done |].
  erewrite array_insert_lookup by (by eapply array_insert_lookup).
  f_equal. unfold wrap.
  rewrite Zplus_mod_idemp_l, Zplus_mod_idemp_r. done.
Qed.

End ThreadCacheMore.

Section ThreadCacheMoreWitnesses.
Import SupperPool Scenario.

Lemma oversize_bypasses_thread_cache_witness :
  ∃ st', allocate 0 300 (fresh []) = Ok (65536, st')
         ∧ self st' = instance ∧ calls st' = []
         ∧ deallocate 0 65536 300 st'
           = Ok (tt, State (self st') (mem st') (central st')
                           (sys_release 65536 (sys st')) (calls st')).
Proof.
  destruct (oversize_bypasses_thread_cache 0 300 65536 (fresh [])) as [Ha _];
    [unfold MAX_BYTES; lia |].
  eexists. split; [exact Ha |]. split; [reflexivity |]. split; [reflexivity |].
  apply oversize_bypasses_thread_cache. unfold MAX_BYTES. lia.
Defined.

Lemma refused_fetch_returns_null_witness :
  ∃ st', allocate 0 8 (fresh []) = Ok (nullptr, st')
         ∧ calls st' = [FetchRange 0]
         ∧ free_list_size_ (self st') !! 0%nat = Some (2 ^ 64 - 1).
Proof.
  destruct (refused_fetch_returns_null 0 8 (fresh []) 0 nullptr 0 [] ∅)
    as (st' & Hrun & Hcalls & Hcount & _).
  - unfold MAX_BYTES. lia.
  - reflexivity.
  - reflexivity.
  - intros Hne. by destruct Hne.
  - reflexivity.
  - exists st'. split; [exact Hrun |]. split; [exact Hcalls | exact Hcount].
Defined.

Lemma deallocate_caches_slot_witness :
  ∃ st', deallocate 0 4096 8 (fresh []) = Ok (tt, st')
         ∧ free_list_ (self st') !! 0%nat = Some 4096
         ∧ chain (mem st') 4096 [4096]
         ∧ free_list_size_ (self st') !! 0%nat = Some 1
         ∧ calls st' = [].
Proof.
  destruct (deallocate_caches_slot 0 4096 8 (fresh []) nullptr 0 [])
    as (st' & Hrun & Hhead & Hchain & Hcount & Hcalls & _).
  - unfold MAX_BYTES. lia.
  - done.
  - reflexivity.
  - reflexivity.
  - vm_compute. discriminate.
  - constructor.
  - apply not_elem_of_nil.
  - exists st'. repeat split; assumption.
Defined.

Lemma allocate_replaces_local_list_witness :
  ∃ st' next,
    allocate 2 8 (holding 0 [4096; 4104] 2 [[8192; 8200]]) = Ok (8192, st')
    ∧ calls st' = [FetchRange 0]
    ∧ free_list_ (self st') !! 0%nat = Some next
    ∧ chain (mem st') next [8200]
    ∧ free_list_size_ (self st') !! 0%nat = Some 3.
Proof.
  destruct (allocate_replaces_local_list 2 8
              (holding 0 [4096; 4104] 2 [[8192; 8200]]) 2 4096 8192
              [4096; 4104] [8192; 8200] []
              (link [8192; 8200] (link [4096; 4104] ∅)))
    as (st' & next & Hrun & Hcalls & _ & Hhead & Hchain & Hcount).
  - unfold MAX_BYTES. lia.
  - reflexivity.
  - reflexivity.
  - by apply is_chain_sound.
  - done.
  - reflexivity.
  - by apply is_chain_sound.
  - done.
  - simpl. lia.
  - exists st', next. repeat split; assumption.
Defined.

End ThreadCacheMoreWitnesses.

(** ** The classes of a thread cache do not interfere *)

Section ClassFrame.
Import SupperPool.
Context {C H : Type} `{!CentralCache C} `{!System H}.
Context (index : Z).

#[local] Abbreviation only := (touches_only (C:=C) (H:=H) (Z.to_nat index)).

Lemma touches_only_ret {A} (a : A) : only (mret a).
Proof. intros s a' s' [= _ <-]. done. Qed.

Lemma touches_only_bind {A B} (m : M (state C H) A) (k : A → M (state C H) B) :
  only m → (∀ a, only (k a)) → only (m ≫= k).
Proof.
  intros Hm Hk s b s'. unfold mbind, M_bind.
  destruct (m s) as [[a s1] | f] eqn:Hms; [| done].
  intros Hks j Hj.
  destruct (Hk _ _ _ _ Hks j Hj) as [-> ->]. by eapply Hm.
Qed.

Lemma touches_only_raise {A} (f : fault) : only (raise f : M (state C H) A).
Proof. by intros s a s'. Qed.

Lemma touches_only_load (a : Z) : only (load a).
Proof.
  intros s v s'. unfold load. destruct (decide _); [done |].
  destruct (mem s !! a); [| done]. by intros [= _ <-].
Qed.

Lemma touches_only_store (a v : Z) : only (store a v).
Proof.
  intros s u s'. unfold store. destruct (decide _); [done |].
  by intros [= _ <-].
Qed.

Lemma touches_only_get_free_list : only (get_free_list index).
Proof.
  intros s v s'. unfold get_free_list.
  destruct (array_get _ _); [| done]. by intros [= _ <-].
Qed.

Lemma touches_only_get_free_list_size : only (get_free_list_size index).
Proof.
  intros s v s'. unfold get_free_list_size.
  destruct (array_get _ _); [| done]. by intros [= _ <-].
Qed.

Lemma touches_only_set_free_list (v : Z) : only (set_free_list index v).
Proof.
  intros s u s'. unfold set_free_list, array_set.
  destruct (decide _); [| done]. intros [= _ <-] j Hj. simpl.
  by rewrite list_lookup_insert_ne.
Qed.

Lemma touches_only_set_free_list_size (v : Z) :
  only (set_free_list_size index v).
Proof.
  intros s u s'. unfold set_free_list_size, array_set.
  destruct (decide _); [| done]. intros [= _ <-] j Hj. simpl.
  by rewrite list_lookup_insert_ne.
Qed.

Lemma touches_only_call_fetchRange : only (call_fetchRange index).
Proof.
  intros s start s'. unfold call_fetchRange.
  destruct (fetchRange index (central s) (mem s)) as [[st c] m].
  by intros [= _ <-].
Qed.

Lemma touches_only_call_rerurnRange (start bytes : Z) :
  only (call_rerurnRange start bytes index).
Proof.
  intros s u s'. unfold call_rerurnRange.
  destruct (rerurnRange start bytes index (central s) (mem s)) as [c m].
  by intros [= _ <-].
Qed.

Lemma touches_only_count_batch (fuel : nat) :
  ∀ current batch_num, only (count_batch fuel current batch_num).
Proof.
  induction fuel as [| fuel IH]; intros current batch_num; simpl;
    destruct (decide _);
    try apply touches_only_ret; try apply touches_only_raise.
  apply touches_only_bind; [apply touches_only_load | intros next; apply IH].
Qed.

Lemma touches_only_walk_to_split (fuel : nat) :
  ∀ i keep_num batch_num split_node return_num,
    only (walk_to_split fuel i keep_num batch_num split_node return_num).
Proof.
  induction fuel as [| fuel IH];
    intros i keep_num batch_num split_node return_num; simpl;
    destruct (decide _);
    try apply touches_only_ret; try apply touches_only_raise.
  apply touches_only_bind; [apply touches_only_load |].
  intros next. destruct (decide _); [apply touches_only_ret | apply IH].
Qed.

Lemma touches_only_malloc (size : Z) : only (malloc size).
Proof.
  intros s p s'. unfold malloc.
  destruct (sys_alloc size (sys s)) as [[q h] |]; by intros [= _ <-].
Qed.

Lemma touches_only_free (ptr : Z) : only (free ptr).
Proof. intros s u s'. unfold free. by intros [= _ <-]. Qed.

End ClassFrame.

#[local] Hint Resolve touches_only_ret touches_only_load touches_only_store
  touches_only_get_free_list touches_only_get_free_list_size
  touches_only_set_free_list touches_only_set_free_list_size
  touches_only_call_fetchRange touches_only_call_rerurnRange
  touches_only_count_batch touches_only_walk_to_split
  touches_only_malloc touches_only_free touches_only_raise : frame.

Ltac touches_only_step :=
  match goal with
  | |- touches_only _ (mbind _ _) => apply touches_only_bind; [| intros ?]
  | |- touches_only _ (if ?c then _ else _) => destruct c
  | |- touches_only _ _ => solve [eauto with frame]
  end.

Section ClassIsolation.
Import SupperPool.
Context {C H : Type} `{!CentralCache C} `{!System H}.

(** X20. Whatever they do to their own class, [allocate] and
    [deallocate] leave the free list and the counter of every other class
    as they were: this holds on every path, the fetch from and the return
    to the CentralCache included, and for oversize requests. *)
Theorem classes_do_not_interfere (fuel : nat) (ptr size : Z)
    (st st' : state C H) (j : nat) :
  j ≠ Z.to_nat (SizeClass.getIndex
                  (if decide (size = 0) then ALIGNMENT else size)) →
  j ≠ Z.to_nat (SizeClass.getIndex size) →
  (∀ r, allocate fuel size st = Ok (r, st') →
     free_list_ (self st') !! j = free_list_ (self st) !! j
     ∧ free_list_size_ (self st') !! j = free_list_size_ (self st) !! j)
  ∧ (deallocate fuel ptr size st = Ok (tt, st') →
     free_list_ (self st') !! j = free_list_ (self st) !! j
     ∧ free_list_size_ (self st') !! j = free_list_size_ (self st) !! j).
Proof.
  intros Hja Hjd. split.
  - intros r Hrun.
    assert (Hframe : touches_only
              (Z.to_nat (SizeClass.getIndex
                           (if decide (size = 0) then ALIGNMENT else size)))
              (allocate (C:=C) (H:=H) fuel size)).
    { unfold allocate, fetchFromCentralCache. repeat touches_only_step. }
    by eapply Hframe.
  - intros Hrun.
    assert (Hframe : touches_only (Z.to_nat (SizeClass.getIndex size))
                       (deallocate (C:=C) (H:=H) fuel ptr size)).
    { unfold deallocate, sholdReturnToCentralCache, returnTocentralCache.
      repeat touches_only_step. }
    by eapply Hframe.
Qed.

End ClassIsolation.

(** ** The slab pool of version 1 *)

Section SlabPool.
Import ZPmemoryPool_version1.
Context {H : Type} `{!System H}.

Lemma pad_aligns (p align : Z) :
  0 < align → SIZE_MODULUS mod align = 0 →
  (p + wrap (align - p) mod align) mod align = 0.
Proof.
  intros Hpos Hdiv. unfold wrap.
  rewrite Z.mod_mod_divide by (by apply Z.mod_divide; [lia |]).
  rewrite Zplus_mod_idemp_r.
  replace (p + (align - p)) with align by lia. apply Z_mod_same_full.
Qed.

Lemma pad_mod8 (p align : Z) :
  0 < align → align mod 8 = 0 → p mod 8 = 0 →
  (wrap (align - p) mod align) mod 8 = 0.
Proof.
  intros Hpos Ha Hp.
  apply Z.mod_divide in Ha; [| lia]. apply Z.mod_divide in Hp; [| lia].
  apply Z.mod_divide; [lia |].
  assert (Hw : (8 | wrap (align - p))).
  { unfold wrap. rewrite Z.mod_eq by done.
    apply Z.divide_sub_r; [by apply Z.divide_sub_r |].
    apply Z.divide_mul_l. by exists (2 ^ 61). }
  rewrite Z.mod_eq by lia.
  apply Z.divide_sub_r; [done |]. by apply Z.divide_mul_l.
Qed.

(** X7. [PadPointer(p, align)] is undefined for [align = 0]; otherwise it
    yields a padding below [align].  The padded address is a multiple of
    [align] when [align] divides [2^64] (a power of two), and the padding
    is a multiple of 8 when [p] and [align] are. *)
Theorem PadPointer_padding (p align : Z) (s : MemoryPool * heap H) :
  0 <= align →
  (align = 0 → PadPointer p align s = Fail undefined_behavior)
  ∧ (0 < align →
     ∃ pad, PadPointer p align s = Ok (pad, s)
            ∧ 0 <= pad < align
            ∧ (SIZE_MODULUS mod align = 0 → (p + pad) mod align = 0)
            ∧ (align mod 8 = 0 → p mod 8 = 0 → pad mod 8 = 0)).
Proof.
  intros Halign. unfold PadPointer. split.
  - intros ->. by destruct (decide (0 = 0)).
  - intros Hpos. destruct (decide (align = 0)); [lia |].
    eexists. split; [reflexivity |].
    split; [apply Z.mod_pos_bound; lia |].
    split; [by apply pad_aligns | by apply pad_mod8].
Qed.

(** What [Allocate] does when the free list is empty, spelled out. *)
Lemma Allocate_empty_free_list (p : MemoryPool) (h : heap H) :
  free_list_ p = nullptr →
  Allocate (p, h) =
    if decide (current_slot_ p = nullptr ∨ current_slot_ p > last_slot_ p) then
      match sys_alloc (block_size_ p) (runtime h) with
      | None => Fail bad_alloc
      | Some (block, r) =>
          if decide (block = nullptr) then Fail undefined_behavior
          else if decide (slot_size_ p = 0) then Fail undefined_behavior
          else
            let body := wrap (block + POINTER_BYTES) in
            let slot :=
              wrap (body + wrap (slot_size_ p - body) mod slot_size_ p) in
            Ok (slot,
                ({| block_size_ := block_size_ p; slot_size_ := slot_size_ p;
                    first_block_ := block;
                    current_slot_ := wrap (slot + slot_size_ p);
                    free_list_ := free_list_ p;
                    last_slot_ :=
                      wrap (wrap (block + block_size_ p) - slot_size_ p) |},
                 Heap (<[block := first_block_ p]> (words h)) r))
      end
    else
      Ok (current_slot_ p,
          (set_current_slot_ (wrap (current_slot_ p + slot_size_ p)) p, h)).
Proof.
  intros Hfl. destruct p as [bs ss fb cur fl last]. simpl in *. subst fl.
  unfold Allocate, pop_free_list, this, update, gets, modify, mbind, M_bind.
  simpl. destruct (decide (nullptr ≠ nullptr)); [done |].
  destruct (decide (cur = nullptr ∨ cur > last)); [| done].
  unfold AllocateNewBlock, this, update, gets, modify, mbind, M_bind,
    on_heap, operator_new, write_next, PadPointer, mret, M_ret.
  simpl. destruct (sys_alloc bs (runtime h)) as [[block r] |]; [| done].
  simpl. destruct (decide (block = nullptr)); [done |].
  destruct (decide (ss = 0)); done.
Qed.

(** What [Allocate] does when the free list is not empty. *)
Lemma Allocate_pop (p : MemoryPool) (h : heap H) :
  free_list_ p ≠ nullptr →
  Allocate (p, h) =
    match words h !! free_list_ p with
    | Some next => Ok (free_list_ p, (set_free_list_ next p, h))
    | None => Fail undefined_behavior
    end.
Proof.
  intros Hfl.
  unfold Allocate, pop_free_list, this, update, gets, modify, mbind, M_bind,
    on_heap, read_next.
  simpl. destruct (decide (free_list_ p ≠ nullptr)); [| done]. simpl.
  destruct (decide (free_list_ p ≠ nullptr)); [| done]. simpl.
  destruct (decide (free_list_ p = nullptr)); [done |].
  by destruct (words h !! free_list_ p).
Qed.

(** X8. A pool whose cursor is [carving] and whose free list is empty
    either gets no block from the system and fails with [bad_alloc], or
    returns a slot that lies inside the current block, after the link at
    its head; the cursor moves one slot on and is still [carving]. *)
Theorem Allocate_stays_in_block (p : MemoryPool) (h : heap H) :
  carving p → free_list_ p = nullptr →
  (∀ block r, sys_alloc (block_size_ p) (runtime h) = Some (block, r) →
              0 < block ∧ block + block_size_ p < SIZE_MODULUS) →
  match Allocate (p, h) with
  | Ok (slot, (p', h')) =>
      carving p'
      ∧ first_block_ p' + POINTER_BYTES <= slot
      ∧ slot + slot_size_ p' <= first_block_ p' + block_size_ p'
      ∧ current_slot_ p' = slot + slot_size_ p'
      ∧ slot_size_ p' = slot_size_ p ∧ block_size_ p' = block_size_ p
  | Fail f => f = bad_alloc ∧ sys_alloc (block_size_ p) (runtime h) = None
  end.
Proof.
  intros (Hss & Hbs & Hcur) Hfl Hsys.
  rewrite Allocate_empty_free_list by done.
  assert (Hm : SIZE_MODULUS = 18446744073709551616) by reflexivity.
  unfold carving, POINTER_BYTES, nullptr in *.
  destruct (decide (current_slot_ p = 0 ∨ current_slot_ p > last_slot_ p))
    as [Hnew | Hold].
  - destruct (sys_alloc (block_size_ p) (runtime h)) as [[block r] |] eqn:Ha;
      [| done].
    destruct (Hsys block r eq_refl) as [Hb0 Hbend].
    destruct (decide (block = 0)); [lia |].
    destruct (decide (slot_size_ p = 0)); [lia |].
    cbv zeta. rewrite (wrap_small (block + 8)) by lia.
    pose proof (Z.mod_pos_bound (wrap (slot_size_ p - (block + 8)))
                  (slot_size_ p) Hss) as Hpad.
    set (pad := wrap (slot_size_ p - (block + 8)) mod slot_size_ p) in *.
    rewrite (wrap_small (block + 8 + pad)) by lia.
    rewrite (wrap_small (block + 8 + pad + slot_size_ p)) by lia.
    rewrite (wrap_small (block + block_size_ p)) by lia.
    rewrite (wrap_small (block + block_size_ p - slot_size_ p)) by lia.
    simpl. split; [| lia].
    split; [lia |]. split; [lia |]. right. lia.
  - destruct Hcur as [Hnull | (Hb0 & Hbend & Hlast & Hlo & Hhi)]; [lia |].
    rewrite (wrap_small (current_slot_ p + slot_size_ p)) by lia.
    simpl. split; [| lia].
    split; [lia |]. split; [lia |]. right. lia.
Qed.

(** X9. With slot sizes and blocks that are multiples of 8, every slot
    carved from a block is 8-byte aligned, and so is the cursor after. *)
Theorem Allocate_aligned (p : MemoryPool) (h : heap H) :
  carving p → free_list_ p = nullptr →
  (∀ block r, sys_alloc (block_size_ p) (runtime h) = Some (block, r) →
              0 < block ∧ block + block_size_ p < SIZE_MODULUS
              ∧ block mod 8 = 0) →
  slot_size_ p mod 8 = 0 → current_slot_ p mod 8 = 0 →
  ∀ slot p' h', Allocate (p, h) = Ok (slot, (p', h')) →
    slot mod 8 = 0 ∧ current_slot_ p' mod 8 = 0.
Proof.
  intros (Hss & Hbs & Hcur) Hfl Hsys Hss8 Hcur8 slot p' h'.
  rewrite Allocate_empty_free_list by done.
  assert (Hm : SIZE_MODULUS = 18446744073709551616) by reflexivity.
  unfold POINTER_BYTES, nullptr in *.
  destruct (decide (current_slot_ p = 0 ∨ current_slot_ p > last_slot_ p))
    as [Hnew | Hold].
  - destruct (sys_alloc (block_size_ p) (runtime h)) as [[block r] |] eqn:Ha;
      [| done].
    destruct (Hsys block r eq_refl) as (Hb0 & Hbend & Hb8).
    destruct (decide (block = 0)); [lia |].
    destruct (decide (slot_size_ p = 0)); [lia |].
    cbv zeta. rewrite (wrap_small (block + 8)) by lia.
    pose proof (Z.mod_pos_bound (wrap (slot_size_ p - (block + 8)))
                  (slot_size_ p) Hss) as Hpad.
    assert (Hpad8 : (wrap (slot_size_ p - (block + 8)) mod slot_size_ p)
                      mod 8 = 0).
    { apply pad_mod8; [done | done |]. Z.div_mod_to_equations. lia. }
    set (pad := wrap (slot_size_ p - (block + 8)) mod slot_size_ p) in *.
    rewrite (wrap_small (block + 8 + pad)) by lia.
    rewrite (wrap_small (block + 8 + pad + slot_size_ p)) by lia.
    intros [= <- <- _]. simpl. split; Z.div_mod_to_equations; lia.
  - destruct Hcur as [Hnull | (Hb0 & Hbend & Hlast & Hlo & Hhi)]; [lia |].
    rewrite (wrap_small (current_slot_ p + slot_size_ p)) by lia.
    intros [= <- <- _]. simpl. split; Z.div_mod_to_equations; lia.
Qed.

(** X10. A freed slot is the next one handed out, and the pool is then as
    it was before the slot was freed; two freed slots come back in the
    reverse order.  Freeing null does nothing. *)
Theorem freed_slot_is_reused (a b : Z) (p : MemoryPool) (h : heap H) :
  a ≠ nullptr → b ≠ nullptr → a ≠ b →
  (Deallocate a;; Allocate) (p, h)
    = Ok (a, (p, Heap (<[a := free_list_ p]> (words h)) (runtime h)))
  ∧ (Deallocate a;; Deallocate b;; x ← Allocate; y ← Allocate; mret (x, y))
      (p, h)
    = Ok ((b, a),
          (p, Heap (<[b := a]> (<[a := free_list_ p]> (words h))) (runtime h)))
  ∧ Deallocate nullptr (p, h) = Ok (tt, (p, h)).
Proof.
  intros Ha Hb Hab.
  assert (Hfree : ∀ q (x : Z) (w : heap H), x ≠ nullptr →
            Deallocate x (q, w)
            = Ok (tt, (set_free_list_ x q,
                       Heap (<[x := free_list_ q]> (words w)) (runtime w)))).
  { intros q x w Hx.
    unfold Deallocate, this, update, gets, modify, mbind, M_bind, on_heap,
      write_next.
    destruct (decide (x ≠ nullptr)); [| done]. simpl.
    by destruct (decide (x = nullptr)). }
  assert (Hback : ∀ x, set_free_list_ (free_list_ p) (set_free_list_ x p) = p)
    by (intros x; by destruct p).
  split; [| split].
  - erewrite bind_ok; [| by apply Hfree].
    rewrite Allocate_pop by done. simpl.
    rewrite lookup_insert_eq. by rewrite Hback.
  - erewrite bind_ok; [| by apply Hfree].
    erewrite bind_ok; [| by apply Hfree].
    erewrite bind_ok;
      [| rewrite Allocate_pop by done; simpl; by rewrite lookup_insert_eq].
    erewrite bind_ok;
      [| rewrite Allocate_pop by done; simpl;
         rewrite lookup_insert_ne, lookup_insert_eq by done; reflexivity].
    simpl. unfold mret, M_ret. do 3 f_equal. by destruct p.
  - unfold Deallocate. by destruct (decide (nullptr ≠ nullptr)).
Qed.

Lemma release_blocks_chain (blocks : list Z) :
  ∀ (fuel : nat) cur (h : heap H),
    chain (words h) cur blocks → (length blocks ≤ fuel)%nat →
    release_blocks fuel cur h
      = Ok (tt, Heap (words h) (released_all blocks (runtime h))).
Proof.
  induction blocks as [| b blocks IH]; intros fuel cur h Hc Hfuel.
  - apply chain_inv_nil in Hc as ->. destruct h. by destruct fuel.
  - apply chain_inv_cons in Hc as (-> & Hb & next & Hnext & Hc).
    destruct fuel as [| fuel]; [simpl in Hfuel; lia |]. simpl.
    destruct (decide (b ≠ nullptr)); [| done].
    erewrite bind_ok;
      [| unfold read_next; destruct (decide (b = nullptr)); [done |];
         by rewrite Hnext].
    erewrite bind_ok; [| reflexivity].
    rewrite IH; [done | done | simpl in Hfuel; lia].
Qed.

(** X11. The destructor releases every block on the list that starts at
    [first_block_] once, newest first, and nothing else; raw memory and the
    members of the pool are not written. *)
Theorem dtor_releases_each_block_once (fuel : nat) (p : MemoryPool)
    (h : heap H) (blocks : list Z) :
  chain (words h) (first_block_ p) blocks → (length blocks ≤ fuel)%nat →
  MemoryPool_dtor fuel (p, h)
    = Ok (tt, (p, Heap (words h) (released_all blocks (runtime h))))
  ∧ NoDup blocks.
Proof.
  intros Hc Hfuel. split; [| by eapply chain_NoDup].
  unfold MemoryPool_dtor, this, gets, mbind, M_bind, on_heap. simpl.
  by rewrite (release_blocks_chain blocks).
Qed.

(** X12. The list of blocks that the destructor walks is kept by the
    pool: [Allocate] either leaves it alone or, when it takes a block
    from the system, puts that block at its head; [Deallocate] of a slot
    that is not the head of a block leaves it alone. *)
Theorem teardown_list_is_kept (p p' : MemoryPool) (h h' : heap H)
    (blocks : list Z) :
  chain (words h) (first_block_ p) blocks →
  (∀ slot, Allocate (p, h) = Ok (slot, (p', h')) →
     (∀ block r, sys_alloc (block_size_ p) (runtime h) = Some (block, r) →
                 block ∉ blocks) →
     (runtime h' = runtime h ∧ chain (words h') (first_block_ p') blocks)
     ∨ (sys_alloc (block_size_ p) (runtime h)
          = Some (first_block_ p', runtime h')
        ∧ chain (words h') (first_block_ p') (first_block_ p' :: blocks)))
  ∧ (∀ ptr, Deallocate ptr (p, h) = Ok (tt, (p', h')) → ptr ∉ blocks →
       runtime h' = runtime h ∧ chain (words h') (first_block_ p') blocks).
Proof.
  intros Hc. split.
  - intros slot Hrun Hfresh.
    destruct (decide (free_list_ p = nullptr)) as [Hfl | Hfl].
    + rewrite Allocate_empty_free_list in Hrun by done.
      destruct (decide (current_slot_ p = nullptr
                        ∨ current_slot_ p > last_slot_ p)).
      * destruct (sys_alloc (block_size_ p) (runtime h))
          as [[block r] |] eqn:Ha; [| done].
        destruct (decide (block = nullptr)); [done |].
        destruct (decide (slot_size_ p = 0)); [done |].
        injection Hrun as _ <- <-. simpl. right. split; [done |].
        apply chain_push; [done | done | by eapply Hfresh].
      * injection Hrun as _ <- <-. by left.
    + rewrite Allocate_pop in Hrun by done.
      destruct (words h !! free_list_ p); [| done].
      injection Hrun as _ <- <-. by left.
  - intros ptr Hrun Hnotin. revert Hrun.
    unfold Deallocate, this, update, gets, modify, mbind, M_bind, on_heap,
      write_next.
    destruct (decide (ptr ≠ nullptr)); simpl.
    + destruct (decide (ptr = nullptr)); [done |]. simpl.
      intros [= <- <-]. simpl. split; [done |].
      by apply chain_insert_other.
    + by intros [= <- <-].
Qed.

Lemma array_insert_lookup_pool (pools : list MemoryPool) (i : nat)
    (q0 q : MemoryPool) :
  pools !! i = Some q0 → <[i := q]> pools !! i = Some q.
Proof. intros Hq. apply list_lookup_insert_eq. by eapply lookup_lt_Some. Qed.

End SlabPool.

(** ** More on the bucketed front end *)

Section HashBucketMore.
Import ZPmemoryPool_version1.
Context {H : Type} `{!System H}.

Lemma at_pool_ok {A} (ref : nat) (call : M (MemoryPool * heap H) A)
    (pools : list MemoryPool) (h h' : heap H) (q q' : MemoryPool) (a : A) :
  pools !! ref = Some q → call (q, h) = Ok (a, (q', h')) →
  at_pool ref call (pools, h) = Ok (a, (<[ref := q']> pools, h')).
Proof. intros Hq Hcall. unfold at_pool. simpl. by rewrite Hq, Hcall. Qed.


Lemma getMemoryPool_bucket (size : Z) (st : list MemoryPool * heap H) :
  0 < size <= MAX_SLOT_SIZE →
  getMemoryPool (bucket_index size) st = Ok (Z.to_nat (bucket_index size), st).
Proof.
  intros Hsize. rewrite getMemoryPool_spec.
  rewrite bucket_index_small by lia.
  unfold MEMORY_POOL_NUM, MAX_SLOT_SIZE in *.
  destruct (decide _) as [Hbad | _]; [| done].
  exfalso. revert Hbad. Z.div_mod_to_equations. lia.
Qed.

Lemma useMemory_pooled (size : Z) (st : list MemoryPool * heap H) :
  0 < size <= MAX_SLOT_SIZE →
  useMemory size st = at_pool (Z.to_nat (bucket_index size)) Allocate st.
Proof.
  intros Hsize. unfold useMemory.
  destruct (decide (size <= 0)); [lia |].
  destruct (decide (size > MAX_SLOT_SIZE)); [lia |].
  by rewrite (bind_ok _ _ _ _ _ (getMemoryPool_bucket size st Hsize)).
Qed.

Lemma freeMemory_pooled (ptr size : Z) (st : list MemoryPool * heap H) :
  ptr ≠ nullptr → 0 < size <= MAX_SLOT_SIZE →
  freeMemory ptr size st
    = at_pool (Z.to_nat (bucket_index size)) (Deallocate ptr) st.
Proof.
  intros Hptr Hsize. unfold freeMemory.
  destruct (decide (ptr = nullptr)); [done |].
  destruct (decide (size > MAX_SLOT_SIZE)); [lia |].
  by rewrite (bind_ok _ _ _ _ _ (getMemoryPool_bucket size st Hsize)).
Qed.

Lemma Deallocate_push (ptr : Z) (q : MemoryPool) (h : heap H) :
  ptr ≠ nullptr →
  Deallocate ptr (q, h)
    = Ok (tt, (set_free_list_ ptr q,
               Heap (<[ptr := free_list_ q]> (words h)) (runtime h))).
Proof.
  intros Hptr.
  unfold Deallocate, this, update, gets, modify, mbind, M_bind, on_heap,
    write_next.
  destruct (decide (ptr ≠ nullptr)); [| done]. simpl.
  by destruct (decide (ptr = nullptr)).
Qed.

Lemma initMemoryPool_loop_spec (n : nat) :
  ∀ (i : Z) (pools : list MemoryPool) (h : heap H),
    0 <= i → i + Z.of_nat n <= MEMORY_POOL_NUM →
    (Z.to_nat i + n ≤ length pools)%nat →
    ∃ pools',
      initMemoryPool_loop n i (pools, h) = Ok (tt, (pools', h))
      ∧ length pools' = length pools
      ∧ ∀ (j : nat) q, pools !! j = Some q →
          pools' !! j
          = Some (if decide (i <= Z.of_nat j < i + Z.of_nat n)
                  then reset_pool (SLOT_BASE_SIZE * (Z.of_nat j + 1)) q
                  else q).
Proof.
  induction n as [| n IH]; intros i pools h Hi Hin Hlen.
  - exists pools. split; [done |]. split; [done |].
    intros j q Hq. destruct (decide _); [lia | done].
  - unfold MEMORY_POOL_NUM, SLOT_BASE_SIZE in *.
    destruct (lookup_lt_is_Some_2 pools (Z.to_nat i)) as [q0 Hq0]; [lia |].
    assert (Hinit : init (wrap ((i + 1) * 8)) (q0, h)
                    = Ok (tt, (reset_pool (8 * (i + 1)) q0, h))).
    { rewrite wrap_small by (unfold SIZE_MODULUS, SIZE_WIDTH; lia).
      unfold init. destruct (decide ((i + 1) * 8 > 0)); [| lia].
      unfold update, modify, reset_pool. simpl. do 4 f_equal. lia. }
    destruct (IH (i + 1) (<[Z.to_nat i := reset_pool (8 * (i + 1)) q0]> pools) h)
      as (pools' & Hrun & Hlen' & Hget);
      [lia | lia | rewrite length_insert; lia |].
    exists pools'. split; [| split].
    + cbn [initMemoryPool_loop].
      erewrite bind_ok;
        [| rewrite getMemoryPool_spec; unfold MEMORY_POOL_NUM;
           destruct (decide _) as [Hbad | _]; [lia | reflexivity]].
      erewrite bind_ok; [| by eapply at_pool_ok].
      exact Hrun.
    + by rewrite Hlen', length_insert.
    + intros j q Hq.
      destruct (decide (j = Z.to_nat i)) as [-> | Hne].
      * assert (q = q0) as -> by congruence.
        rewrite (Hget (Z.to_nat i) (reset_pool (8 * (i + 1)) q0))
          by (by eapply array_insert_lookup_pool).
        rewrite Z2Nat.id by lia.
        destruct (decide (i + 1 <= i < i + 1 + Z.of_nat n)); [lia |].
        destruct (decide (i <= i < i + Z.of_nat (S n))); [| lia].
        done.
      * rewrite (Hget j q) by (by rewrite list_lookup_insert_ne).
        destruct (decide (i + 1 <= Z.of_nat j < i + 1 + Z.of_nat n));
          destruct (decide (i <= Z.of_nat j < i + Z.of_nat (S n)));
          try done; lia.
Qed.

(** X13. On the array of 64 pools [initMemoryPool] succeeds, touches
    neither the heap nor the length of the array, and leaves pool [j]
    reset for slots of [8 * (j + 1)] bytes, its block size kept. *)
Theorem initMemoryPool_sets_slot_sizes (pools : list MemoryPool) (h : heap H) :
  length pools = Z.to_nat MEMORY_POOL_NUM →
  ∃ pools',
    initMemoryPool (pools, h) = Ok (tt, (pools', h))
    ∧ length pools' = length pools
    ∧ ∀ (j : nat) q, pools !! j = Some q →
        pools' !! j = Some (reset_pool (SLOT_BASE_SIZE * (Z.of_nat j + 1)) q).
Proof.
  intros Hlen.
  destruct (initMemoryPool_loop_spec (Z.to_nat MEMORY_POOL_NUM) 0 pools h)
    as (pools' & Hrun & Hlen' & Hget);
    [lia | unfold MEMORY_POOL_NUM; lia | lia |].
  exists pools'. split; [done |]. split; [done |].
  intros j q Hq. rewrite (Hget j q Hq).
  apply lookup_lt_Some in Hq. rewrite Hlen in Hq.
  destruct (decide _) as [_ | Hout]; [done |].
  unfold MEMORY_POOL_NUM in *. lia.
Qed.

(** X14. Once [initMemoryPool] has run on the static array, a request of
    [0 < size <= MAX_SLOT_SIZE] bytes is routed to a pool whose slots are
    the least multiple of 8 that holds [size]; that pool is ready to carve
    its first block. *)
Theorem request_fits_its_slot (size : Z) (h : heap H) :
  0 < size <= MAX_SLOT_SIZE →
  ∃ pools' q,
    initMemoryPool (pools, h) = Ok (tt, (pools', h))
    ∧ pools' !! Z.to_nat (bucket_index size) = Some q
    ∧ slot_size_ q = SLOT_BASE_SIZE * ceil_div size SLOT_BASE_SIZE
    ∧ size <= slot_size_ q < size + SLOT_BASE_SIZE
    ∧ block_size_ q = 4096 ∧ free_list_ q = nullptr ∧ carving q.
Proof.
  intros Hsize.
  destruct (initMemoryPool_loop_spec (Z.to_nat MEMORY_POOL_NUM) 0 pools h)
    as (pools' & Hrun & Hlen' & Hget);
    [lia | unfold MEMORY_POOL_NUM; lia
    | unfold pools; rewrite length_replicate; lia |].
  pose proof (bucket_index_small size ltac:(lia)) as Hidx.
  unfold MAX_SLOT_SIZE, SLOT_BASE_SIZE, MEMORY_POOL_NUM in *.
  assert (Hrange : 0 <= (size + 7) / 8 - 1 < 64)
    by (Z.div_mod_to_equations; lia).
  set (j := Z.to_nat (bucket_index size)).
  assert (Hj : Z.of_nat j = (size + 7) / 8 - 1) by (subst j; lia).
  assert (Hq : pools !! j = Some (MemoryPool_ctor 4096)).
  { apply lookup_replicate_2. unfold MEMORY_POOL_NUM. lia. }
  exists pools', (reset_pool (8 * (Z.of_nat j + 1)) (MemoryPool_ctor 4096)).
  split; [done |]. split.
  { rewrite (Hget j _ Hq). destruct (decide _) as [_ | Hout]; [done | lia]. }
  simpl. rewrite ceil_div_8, Hj.
  split; [lia |].
  split; [Z.div_mod_to_equations; lia |].
  split; [done |]. split; [done |].
  unfold carving, POINTER_BYTES. simpl.
  split; [Z.div_mod_to_equations; lia |].
  split; [Z.div_mod_to_equations; lia | by left].
Qed.


(** X16. Through the front end too a freed slot is reused: after
    [freeMemory(ptr, size)], a [useMemory] of any size of the same class
    returns [ptr], and every pool is as before the two calls. *)
Theorem bucket_reuses_freed_slot (ptr size size' : Z)
    (pools : list MemoryPool) (h : heap H) (q : MemoryPool) :
  ptr ≠ nullptr →
  0 < size <= MAX_SLOT_SIZE → 0 < size' <= MAX_SLOT_SIZE →
  bucket_index size = bucket_index size' →
  pools !! Z.to_nat (bucket_index size) = Some q →
  (freeMemory ptr size;; useMemory size') (pools, h)
    = Ok (ptr, (pools, Heap (<[ptr := free_list_ q]> (words h)) (runtime h))).
Proof.
  intros Hptr Hsize Hsize' Hclass Hq.
  erewrite bind_ok;
    [| rewrite freeMemory_pooled by done;
       eapply at_pool_ok; [done | by apply Deallocate_push]].
  rewrite useMemory_pooled by done. rewrite <- Hclass.
  erewrite at_pool_ok;
    [| by eapply array_insert_lookup_pool
     | rewrite Allocate_pop by done; simpl;
       rewrite lookup_insert_eq; reflexivity].
  rewrite list_insert_insert_eq. do 3 f_equal.
  apply list_insert_id. rewrite Hq. f_equal. by destruct q.
Qed.

(** X17. [useMemory] never throws [std::out_of_range].  [freeMemory]
    throws it in exactly one case: a non-null pointer freed with size 0,
    for which the index computed is [-1]. *)
Theorem freeMemory_throws_only_on_size_zero (ptr size : Z)
    (st : list MemoryPool * heap H) :
  0 <= size < SIZE_MODULUS →
  useMemory size st ≠ Fail out_of_range
  ∧ (freeMemory ptr size st = Fail out_of_range
     ↔ ptr ≠ nullptr ∧ size = 0).
Proof.
  intros Hsize. split.
  - destruct (decide (0 < size <= MAX_SLOT_SIZE)) as [Hin | Hout].
    + rewrite useMemory_pooled by done.
      apply never_throws_at_pool, never_throws_Allocate.
    + unfold useMemory. destruct (decide (size <= 0)); [done |].
      destruct (decide (size > MAX_SLOT_SIZE)); [| lia].
      apply never_throws_on_heap, never_throws_operator_new.
  - destruct (decide (ptr = nullptr)) as [-> | Hptr].
    { unfold freeMemory. destruct (decide (nullptr = nullptr)); [| done].
      split; [done | by intros [? _]]. }
    destruct (decide (size = 0)) as [-> | Hnz].
    { split; [done |]. intros _. unfold freeMemory.
      destruct (decide (ptr = nullptr)); [done |].
      destruct (decide (0 > MAX_SLOT_SIZE)); [done |]. reflexivity. }
    split; [| by intros [_ ?]].
    intros Hthrow. exfalso. revert Hthrow.
    destruct (decide (size <= MAX_SLOT_SIZE)) as [Hin | Hout].
    + rewrite freeMemory_pooled by (done || lia).
      apply never_throws_at_pool, never_throws_Deallocate.
    + unfold freeMemory. destruct (decide (ptr = nullptr)); [done |].
      destruct (decide (size > MAX_SLOT_SIZE)); [done | lia].
Qed.

End HashBucketMore.

(** ** The slab pool of src/ZPmemoryPool.cc *)

Section SrcPool.
Context {H : Type} `{!System H}.
Context (PadPointer : Z → Z → Z).

(** X18. In src/ZPmemoryPool.cc, once [init] has run, [last_slot_] is
    null and stays null.  So [Allocate] with an empty free list asks the
    system for a block every time; it fails with [bad_alloc] when the
    system refuses, and otherwise hands out the address
    [block + block_size_ - slot_size_ + 1], a slot that ends one byte past
    the block.  The pool is then in the same situation again. *)
Theorem src_takes_a_block_per_slot (p : ZPmemoryPool_src.MemoryPool)
    (h : heap H) :
  ZPmemoryPool_src.last_slot_ p = nullptr →
  ZPmemoryPool_src.free_list_ p = nullptr →
  0 <= ZPmemoryPool_src.current_slot_ p →
  0 < ZPmemoryPool_src.slot_size_ p <= ZPmemoryPool_src.block_size_ p →
  (∀ block r,
     sys_alloc (ZPmemoryPool_src.block_size_ p) (runtime h) = Some (block, r) →
     0 < block ∧ block + ZPmemoryPool_src.block_size_ p + 1 < SIZE_MODULUS) →
  match ZPmemoryPool_src.Allocate PadPointer (p, h) with
  | Ok (slot, (p', h')) =>
      sys_alloc (ZPmemoryPool_src.block_size_ p) (runtime h)
        = Some (ZPmemoryPool_src.first_block_ p', runtime h')
      ∧ slot = ZPmemoryPool_src.first_block_ p'
               + ZPmemoryPool_src.block_size_ p
               - ZPmemoryPool_src.slot_size_ p + 1
      ∧ slot + ZPmemoryPool_src.slot_size_ p
        > ZPmemoryPool_src.first_block_ p' + ZPmemoryPool_src.block_size_ p
      ∧ ZPmemoryPool_src.last_slot_ p' = nullptr
      ∧ ZPmemoryPool_src.free_list_ p' = nullptr
      ∧ 0 <= ZPmemoryPool_src.current_slot_ p'
      ∧ ZPmemoryPool_src.slot_size_ p' = ZPmemoryPool_src.slot_size_ p
      ∧ ZPmemoryPool_src.block_size_ p' = ZPmemoryPool_src.block_size_ p
  | Fail f =>
      f = bad_alloc
      ∧ sys_alloc (ZPmemoryPool_src.block_size_ p) (runtime h) = None
  end.
Proof.
  destruct p as [bs ss fb cur fl last]. simpl.
  intros -> -> Hcur Hss Hsys.
  unfold ZPmemoryPool_src.Allocate, ZPmemoryPool_src.pop_free_list,
    ZPmemoryPool_src.this, ZPmemoryPool_src.update, gets, modify, mbind, M_bind.
  simpl. destruct (decide (nullptr ≠ nullptr)); [done |]. simpl.
  destruct (decide (cur >= nullptr)); [| unfold nullptr in *; lia].
  unfold ZPmemoryPool_src.AllocateNewBlock, ZPmemoryPool_src.this,
    ZPmemoryPool_src.update, gets, modify, mbind, M_bind, on_heap,
    operator_new, write_next.
  simpl. destruct (sys_alloc bs (runtime h)) as [[block r] |] eqn:Ha; [| done].
  destruct (Hsys block r eq_refl) as [Hb0 Hbend]. simpl.
  destruct (decide (block = nullptr)); [unfold nullptr in *; lia |]. simpl.
  assert (Hm : SIZE_MODULUS = 18446744073709551616) by reflexivity.
  rewrite (wrap_small (block + bs)) by lia.
  rewrite (wrap_small (block + bs - ss)) by lia.
  rewrite (wrap_small (block + bs - ss + 1)) by lia.
  split; [done |]. split; [done |]. split; [lia |].
  split; [done |]. split; [done |].
  split; [apply wrap_range | done].
Qed.

Lemma src_Allocate_pop (p : ZPmemoryPool_src.MemoryPool) (h : heap H) :
  ZPmemoryPool_src.free_list_ p ≠ nullptr →
  ZPmemoryPool_src.Allocate PadPointer (p, h) =
    match words h !! ZPmemoryPool_src.free_list_ p with
    | Some next =>
        Ok (ZPmemoryPool_src.free_list_ p,
            (ZPmemoryPool_src.set_free_list_ next p, h))
    | None => Fail undefined_behavior
    end.
Proof.
  intros Hfl.
  unfold ZPmemoryPool_src.Allocate, ZPmemoryPool_src.pop_free_list,
    ZPmemoryPool_src.this, ZPmemoryPool_src.update, gets, modify, mbind,
    M_bind, on_heap, read_next.
  simpl.
  destruct (decide (ZPmemoryPool_src.free_list_ p ≠ nullptr)); [| done]. simpl.
  destruct (decide (ZPmemoryPool_src.free_list_ p ≠ nullptr)); [| done]. simpl.
  destruct (decide (ZPmemoryPool_src.free_list_ p = nullptr)); [done |].
  by destruct (words h !! ZPmemoryPool_src.free_list_ p).
Qed.

(** X19. Where the two slab pools do agree: [init] resets both in the
    same way (and fails the same assertion on 0), and with a non-empty
    free list [Allocate] pops the same slot in both, leaving the same
    pool and the heap untouched. *)
Theorem slab_pools_agree_on_free_list (size : Z)
    (p : ZPmemoryPool_src.MemoryPool) (h : heap H) :
  match ZPmemoryPool_src.init size (p, h),
        ZPmemoryPool_version1.init size (as_version1 p, h) with
  | Ok (_, (p', h1)), Ok (_, (q', h2)) =>
      q' = as_version1 p' ∧ h1 = h ∧ h2 = h ∧ size > 0
  | Fail f, Fail g => f = assertion_failure ∧ g = assertion_failure ∧ size <= 0
  | _, _ => False
  end
  ∧ (ZPmemoryPool_src.free_list_ p ≠ nullptr →
     match ZPmemoryPool_src.Allocate PadPointer (p, h),
           ZPmemoryPool_version1.Allocate (as_version1 p, h) with
     | Ok (a, (p', h1)), Ok (b, (q', h2)) =>
         a = ZPmemoryPool_src.free_list_ p ∧ b = a
         ∧ q' = as_version1 p' ∧ h1 = h ∧ h2 = h
     | Fail f, Fail g => f = g
     | _, _ => False
     end).
Proof.
  split.
  - unfold ZPmemoryPool_src.init, ZPmemoryPool_version1.init.
    destruct (decide (size > 0)); simpl; [done |].
    repeat split; lia.
  - intros Hfl. rewrite src_Allocate_pop by done.
    rewrite Allocate_pop by done. simpl.
    by destruct (words h !! ZPmemoryPool_src.free_list_ p).
Qed.

End SrcPool.

Section SlabPoolWitnesses.
Import ZPmemoryPool_version1.

Lemma PadPointer_padding_witness :
  let s := (MemoryPool_ctor 4096, Heap ∅ (Scenario.Bump 65536 [])) in
  ∃ pad, PadPointer 65544 24 s = Ok (pad, s) ∧ 0 <= pad < 24 ∧ pad mod 8 = 0.
Proof.
  intros s.
  destruct (PadPointer_padding 65544 24 s) as [_ Hpad]; [lia |].
  destruct Hpad as (pad & Hrun & Hrange & _ & H8); [lia |].
  exists pad. split; [exact Hrun |]. split; [exact Hrange |].
  apply H8; reflexivity.
Defined.

(** A pool of 4096-byte blocks set up for 24-byte slots, and a system
    heap that hands out blocks from 65536 on. *)
Lemma Allocate_stays_in_block_witness :
  let p := {| block_size_ := 4096; slot_size_ := 24; first_block_ := nullptr;
              current_slot_ := nullptr; free_list_ := nullptr;
              last_slot_ := nullptr |} in
  let h := Heap ∅ (Scenario.Bump 65536 []) in
  match Allocate (p, h) with
  | Ok (slot, (p', h')) =>
      carving p'
      ∧ first_block_ p' + POINTER_BYTES <= slot
      ∧ slot + slot_size_ p' <= first_block_ p' + block_size_ p'
      ∧ current_slot_ p' = slot + slot_size_ p'
      ∧ slot_size_ p' = slot_size_ p ∧ block_size_ p' = block_size_ p
  | Fail f => f = bad_alloc ∧ sys_alloc (block_size_ p) (runtime h) = None
  end.
Proof.
  intros p h. apply (Allocate_stays_in_block p h).
  - split; [reflexivity |]. split; [vm_compute; discriminate |].
    left. reflexivity.
  - reflexivity.
  - intros block r Ha. vm_compute in Ha. injection Ha as <- <-.
    split; reflexivity.
Defined.

Lemma Allocate_aligned_witness :
  let p := {| block_size_ := 4096; slot_size_ := 24; first_block_ := nullptr;
              current_slot_ := nullptr; free_list_ := nullptr;
              last_slot_ := nullptr |} in
  let h := Heap ∅ (Scenario.Bump 65536 []) in
  ∃ slot p' h',
    Allocate (p, h) = Ok (slot, (p', h'))
    ∧ slot mod 8 = 0 ∧ current_slot_ p' mod 8 = 0.
Proof.
  intros p h.
  destruct (Allocate (p, h)) as [[slot [p' h']] |] eqn:Hrun;
    [| vm_compute in Hrun; discriminate].
  exists slot, p', h'. split; [reflexivity |].
  apply (Allocate_aligned p h) with (h' := h'); [| | | | | exact Hrun].
  - split; [reflexivity |]. split; [vm_compute; discriminate |].
    left. reflexivity.
  - reflexivity.
  - intros block r Ha. vm_compute in Ha. injection Ha as <- <-.
    repeat split; reflexivity.
  - reflexivity.
  - reflexivity.
Defined.

Lemma freed_slot_is_reused_witness :
  let p := MemoryPool_ctor 4096 in
  let h := Heap ∅ (Scenario.Bump 65536 []) in
  (Deallocate 4096;; Allocate) (p, h)
    = Ok (4096, (p, Heap (<[4096 := free_list_ p]> (words h)) (runtime h)))
  ∧ (Deallocate 4096;; Deallocate 4104;; x ← Allocate; y ← Allocate;
     mret (x, y)) (p, h)
    = Ok ((4104, 4096),
          (p, Heap (<[4104 := 4096]> (<[4096 := free_list_ p]> (words h)))
                   (runtime h)))
  ∧ Deallocate nullptr (p, h) = Ok (tt, (p, h)).
Proof.
  intros p h. apply (freed_slot_is_reused 4096 4104 p h); done.
Defined.

Lemma dtor_releases_each_block_once_witness :
  let p := {| block_size_ := 4096; slot_size_ := 24; first_block_ := 69632;
              current_slot_ := 69664; free_list_ := nullptr;
              last_slot_ := 73704 |} in
  let h := Heap (Scenario.link [69632; 65536] ∅) (Scenario.Bump 73728 []) in
  MemoryPool_dtor 2 (p, h)
    = Ok (tt, (p, Heap (words h) (released_all [69632; 65536] (runtime h))))
  ∧ NoDup [69632; 65536].
Proof.
  intros p h. apply (dtor_releases_each_block_once 2 p h [69632; 65536]).
  - by apply is_chain_sound.
  - simpl. lia.
Defined.

Lemma teardown_list_is_kept_witness :
  let p := {| block_size_ := 4096; slot_size_ := 24; first_block_ := nullptr;
              current_slot_ := nullptr; free_list_ := nullptr;
              last_slot_ := nullptr |} in
  let h := Heap ∅ (Scenario.Bump 65536 []) in
  ∃ slot p' h',
    Allocate (p, h) = Ok (slot, (p', h'))
    ∧ chain (words h') (first_block_ p') [first_block_ p'].
Proof.
  intros p h.
  destruct (Allocate (p, h)) as [[slot [p' h']] |] eqn:Hrun;
    [| vm_compute in Hrun; discriminate].
  destruct (teardown_list_is_kept p p' h h' []) as [Hkeep _];
    [constructor |].
  exists slot, p', h'. split; [reflexivity |].
  destruct (Hkeep slot Hrun) as [[Hsame _] | [_ Hchain]];
    [intros; apply not_elem_of_nil | | exact Hchain].
  vm_compute in Hrun. injection Hrun as _ _ <-. discriminate.
Defined.

Lemma initMemoryPool_sets_slot_sizes_witness :
  let h := Heap ∅ (Scenario.Bump 65536 []) in
  ∃ pools',
    initMemoryPool (pools, h) = Ok (tt, (pools', h))
    ∧ length pools' = length pools
    ∧ ∀ (j : nat) q, pools !! j = Some q →
        pools' !! j = Some (reset_pool (SLOT_BASE_SIZE * (Z.of_nat j + 1)) q).
Proof.
  intros h. apply (initMemoryPool_sets_slot_sizes pools h). reflexivity.
Defined.

Lemma request_fits_its_slot_witness :
  let h := Heap ∅ (Scenario.Bump 65536 []) in
  ∃ pools' q,
    initMemoryPool (pools, h) = Ok (tt, (pools', h))
    ∧ pools' !! Z.to_nat (bucket_index 100) = Some q
    ∧ slot_size_ q = SLOT_BASE_SIZE * ceil_div 100 SLOT_BASE_SIZE
    ∧ 100 <= slot_size_ q < 100 + SLOT_BASE_SIZE
    ∧ block_size_ q = 4096 ∧ free_list_ q = nullptr ∧ carving q.
Proof.
  intros h. apply (request_fits_its_slot 100 h).
  unfold MAX_SLOT_SIZE. lia.
Defined.


Lemma bucket_reuses_freed_slot_witness :
  let h := Heap ∅ (Scenario.Bump 65536 []) in
  (freeMemory 4096 100;; useMemory 104) (pools, h)
    = Ok (4096, (pools, Heap (<[4096 := nullptr]> (words h)) (runtime h))).
Proof.
  intros h.
  apply (bucket_reuses_freed_slot 4096 100 104 pools h (MemoryPool_ctor 4096)).
  - done.
  - unfold MAX_SLOT_SIZE. lia.
  - unfold MAX_SLOT_SIZE. lia.
  - reflexivity.
  - reflexivity.
Defined.

Lemma freeMemory_throws_only_on_size_zero_witness :
  let st := (pools, Heap ∅ (Scenario.Bump 65536 [])) in
  useMemory 0 st ≠ Fail out_of_range
  ∧ (freeMemory 4096 0 st = Fail out_of_range ↔ 4096 ≠ nullptr ∧ 0 = 0).
Proof.
  intros st. apply (freeMemory_throws_only_on_size_zero 4096 0 st).
  split; [lia | reflexivity].
Defined.

Lemma src_takes_a_block_per_slot_witness :
  let p := {| ZPmemoryPool_src.block_size_ := 4096;
              ZPmemoryPool_src.slot_size_ := 8;
              ZPmemoryPool_src.first_block_ := nullptr;
              ZPmemoryPool_src.current_slot_ := nullptr;
              ZPmemoryPool_src.free_list_ := nullptr;
              ZPmemoryPool_src.last_slot_ := nullptr |} in
  let h := Heap ∅ (Scenario.Bump 65536 []) in
  ∃ p' h',
    ZPmemoryPool_src.Allocate (λ _ _, 0) (p, h) = Ok (69625, (p', h'))
    ∧ 69625 + 8 > 65536 + 4096
    ∧ ZPmemoryPool_src.last_slot_ p' = nullptr.
Proof.
  intros p h.
  pose proof (src_takes_a_block_per_slot (λ _ _, 0) p h) as Hx.
  destruct (ZPmemoryPool_src.Allocate (λ _ _, 0) (p, h))
    as [[slot [p' h']] |] eqn:Hrun; [| vm_compute in Hrun; discriminate].
  destruct Hx as (_ & _ & _ & Hlast & _).
  - reflexivity.
  - reflexivity.
  - vm_compute. discriminate.
  - vm_compute. split; [reflexivity | discriminate].
  - intros block r Ha. vm_compute in Ha. injection Ha as <- <-.
    split; reflexivity.
  - exists p', h'. split; [| split; [reflexivity | exact Hlast]].
    vm_compute in Hrun. injection Hrun as <- <- <-. reflexivity.
Defined.

Lemma slab_pools_agree_on_free_list_witness :
  let p := {| ZPmemoryPool_src.block_size_ := 4096;
              ZPmemoryPool_src.slot_size_ := 8;
              ZPmemoryPool_src.first_block_ := nullptr;
              ZPmemoryPool_src.current_slot_ := nullptr;
              ZPmemoryPool_src.free_list_ := 4096;
              ZPmemoryPool_src.last_slot_ := nullptr |} in
  let h := Heap {[ 4096 := nullptr ]} (Scenario.Bump 65536 []) in
  match ZPmemoryPool_src.Allocate (λ _ _, 0) (p, h),
        ZPmemoryPool_version1.Allocate (as_version1 p, h) with
  | Ok (a, (p', h1)), Ok (b, (q', h2)) =>
      a = ZPmemoryPool_src.free_list_ p ∧ b = a
      ∧ q' = as_version1 p' ∧ h1 = h ∧ h2 = h
  | Fail f, Fail g => f = g
  | _, _ => False
  end.
Proof.
  intros p h.
  destruct (slab_pools_agree_on_free_list (λ _ _, 0) 8 p h) as [_ Hpop].
  apply Hpop. discriminate.
Defined.

End SlabPoolWitnesses.

Section ClassIsolationWitness.
Import SupperPool Scenario.

Lemma classes_do_not_interfere_witness :
  let st := holding 5 [8192] 1 [[4096; 4104]] in
  ∃ st',
    allocate 2 8 st = Ok (4096, st')
    ∧ free_list_ (self st') !! 5%nat = Some 8192
    ∧ free_list_size_ (self st') !! 5%nat = Some 1.
Proof.
  intros st.
  destruct (allocate 2 8 st) as [[r st'] |] eqn:Hrun;
    [| vm_compute in Hrun; discriminate].
  destruct (classes_do_not_interfere 2 4096 8 st st' 5) as [Halloc _].
  - intros Heq. vm_compute in Heq. discriminate.
  - intros Heq. vm_compute in Heq. discriminate.
  - destruct (Halloc r Hrun) as [Hlist Hcount].
    exists st'. split; [| split; [by rewrite Hlist | by rewrite Hcount]].
    vm_compute in Hrun. injection Hrun as <- <-. reflexivity.
Defined.

End ClassIsolationWitness.
